(** * count_lines.py: a shallow embedding and its verified properties

    The program walks directory trees, counts the lines of every file whose
    name ends in [.cpp] or [.hpp], prints one line per file and per-root
    summaries, and a grand total when several roots are given.

    The embedding follows [src/count_lines.py] statement by statement.  What
    the script takes from Python's library is modelled next to it:
    - [open(path, 'r', encoding='utf-8', errors=...)]: a UTF-8 decoder with
      an explicit error policy, followed by universal-newline translation
      (the default [newline=None]) and line iteration;
    - [os.walk(root)] with its default arguments ([topdown=True],
      [onerror=None], [followlinks=False]);
    - [os.path.join] and [os.path.isdir] (POSIX flavour);
    - [print], as an output event appended to a trace; printing itself is
      taken to succeed, but for [count_lines_enc], the embedding of
      [count_lines] in which the per-file line of line 24 is encoded for
      standard output and raises when its path cannot be;
    - exceptions, as the left summand of the result of a computation.

    The file system is a finite tree that does not change while the program
    runs.  The depth of the tree is not bounded by an interpreter limit
    ([os.walk] as a loop, not as a recursion). *)

From Stdlib Require Import List Strings.String Strings.Ascii Strings.Byte.
From Stdlib Require Import ZArith Lia Bool Arith Permutation.
From Stdlib Require Import Numbers.DecimalString.
Import ListNotations.

Local Open Scope string_scope.
Local Open Scope list_scope.

(* ================================================================== *)
(** ** Exceptions and the output trace *)

(** The exceptions the modelled library calls raise.  All are subclasses
    of Python's [Exception]; the payload is the text [str(e)] yields. *)
Inductive exn : Type :=
| OSError (msg : string)
| UnicodeDecodeError (msg : string)
| UnicodeEncodeError (msg : string).

(** [str(e)], as interpolated by [{e}] in an f-string. *)
Definition str (e : exn) : string :=
  match e with
  | OSError msg => msg
  | UnicodeDecodeError msg => msg
  | UnicodeEncodeError msg => msg
  end.

(** One [print] call of the script.  Each constructor is one of the seven
    [print] statements; the arguments are the values interpolated. *)
Inductive event : Type :=
| EWarning (path cause : string)                   (* line 20, stderr *)
| EFile (path : string) (lines : nat)              (* line 24 *)
| EError (d : string)                              (* line 51, stderr *)
| EScanning (d : string)                           (* line 54 *)
| ESummary (d : string) (cpp hpp sum : nat)        (* line 56 *)
| ESeparator                                       (* line 62 *)
| ETotal (k total_cpp total_hpp grand_total : nat) (* line 63 *).

Inductive stream : Type := Stdout | Stderr.

(** The [file=] argument of each [print]. *)
Definition stream_of (e : event) : stream :=
  match e with
  | EWarning _ _ | EError _ => Stderr
  | _ => Stdout
  end.

Definition on_stderr (e : event) : bool :=
  match stream_of e with Stderr => true | Stdout => false end.

Definition on_stdout (e : event) : bool := negb (on_stderr e).

(** Decimal rendering of a Python [int] that is a count. *)
Definition decimal (n : nat) : string :=
  NilZero.string_of_uint (Nat.to_uint n).

(** [nl] is the newline the banner and summary f-strings start with. *)
Definition nl : string := String (ascii_of_nat 10) EmptyString.

Fixpoint repeat_string (s : string) (n : nat) : string :=
  match n with
  | O => EmptyString
  | S n' => s ++ repeat_string s n'
  end.

(** The text each [print] writes (without the newline [print] appends).
    [repr] is Python's [repr] on [str], which [{x!r}] applies; it is a
    parameter of the rendering. *)
Definition render (repr : string -> string) (e : event) : string :=
  match e with
  | EWarning path cause =>
      "Warning: could not read " ++ repr path ++ ": " ++ cause
  | EFile path lines =>
      path ++ ": " ++ decimal lines ++ " lines"
  | EError d =>
      "Error: " ++ repr d ++ " is not a directory"
  | EScanning d =>
      nl ++ "== Scanning " ++ repr d ++ " =="
  | ESummary d cpp hpp sum =>
      nl ++ "Summary for " ++ repr d ++ ": .cpp=" ++ decimal cpp
         ++ "  .hpp=" ++ decimal hpp ++ "  sum=" ++ decimal sum
  | ESeparator =>
      nl ++ repeat_string "=" 40
  | ETotal k total_cpp total_hpp grand_total =>
      "TOTAL across " ++ decimal k ++ " dirs: .cpp=" ++ decimal total_cpp
         ++ "  .hpp=" ++ decimal total_hpp ++ "  sum=" ++ decimal grand_total
  end.

(** A computation: the events it printed, in order, and either the
    exception that ended it or its value. *)
Definition IO (A : Type) : Type := list event * (exn + A).

Definition ret {A} (a : A) : IO A := ([], inr a).

Definition bind {A B} (m : IO A) (k : A -> IO B) : IO B :=
  match m with
  | (t1, inl e) => (t1, inl e)
  | (t1, inr a) => let '(t2, r) := k a in (t1 ++ t2, r)
  end.

Definition print (e : event) : IO unit := ([e], inr tt).

(** [try: m  except Exception as e: handler e]. *)
Definition try_except {A} (m : IO A) (handler : exn -> IO A) : IO A :=
  match m with
  | (t1, inl e) => let '(t2, r) := handler e in (t1 ++ t2, r)
  | (t1, inr a) => (t1, inr a)
  end.

Declare Scope io_scope.
Delimit Scope io_scope with io.
Notation "x <- m ;; k" := (bind m (fun x => k))
  (at level 100, m at next level, right associativity) : io_scope.
Notation "' p <- m ;; k" := (bind m (fun x => match x with p => k end))
  (at level 100, p pattern, m at next level, right associativity) : io_scope.
Notation "m ;; k" := (bind m (fun _ => k))
  (at level 100, right associativity) : io_scope.

(** [for x in xs: st = body st x], with the loop-carried variables [st]. *)
Fixpoint for_each {A S} (xs : list A) (st : S) (body : S -> A -> IO S)
  : IO S :=
  match xs with
  | [] => ret st
  | x :: xs' => bind (body st x) (fun st' => for_each xs' st' body)
  end.

Definition trace {A} (m : IO A) : list event := fst m.
Definition outcome {A} (m : IO A) : exn + A := snd m.

(* ================================================================== *)
(** ** Text files: decoding and line iteration *)

(** The [errors=] argument of [open]. *)
Inductive errors_policy : Type := Strict | Ignore.

Definition byte_val (b : byte) : Z := Z.of_N (Byte.to_N b).

Definition in_range (lo hi v : Z) : bool := ((lo <=? v) && (v <=? hi))%Z.

(** A continuation byte, [10xxxxxx]. *)
Definition is_cont (v : Z) : bool := in_range 128 191 v.

(** For a lead byte of a multi-byte sequence: how many bytes follow it and
    the range the first of them must lie in (the well-formed byte
    sequences of UTF-8: no overlong forms, no surrogates, nothing above
    U+10FFFF).  [None] for a byte that cannot start a sequence. *)
Definition lead_info (v : Z) : option (nat * Z * Z) :=
  if in_range 194 223 v then Some (1%nat, 128, 191)%Z
  else if (v =? 224)%Z then Some (2%nat, 160, 191)%Z
  else if in_range 225 236 v then Some (2%nat, 128, 191)%Z
  else if (v =? 237)%Z then Some (2%nat, 128, 159)%Z
  else if in_range 238 239 v then Some (2%nat, 128, 191)%Z
  else if (v =? 240)%Z then Some (3%nat, 144, 191)%Z
  else if in_range 241 243 v then Some (3%nat, 128, 191)%Z
  else if (v =? 244)%Z then Some (3%nat, 128, 143)%Z
  else None.

Definition cp2 (v0 v1 : Z) : Z := ((v0 - 192) * 64 + (v1 - 128))%Z.
Definition cp3 (v0 v1 v2 : Z) : Z :=
  ((v0 - 224) * 4096 + (v1 - 128) * 64 + (v2 - 128))%Z.
Definition cp4 (v0 v1 v2 v3 : Z) : Z :=
  ((v0 - 240) * 262144 + (v1 - 128) * 4096 + (v2 - 128) * 64 + (v3 - 128))%Z.

(** What the decoder does at an ill-formed sequence: raise under
    ['strict'], or skip it and go on with [resume] under ['ignore']. *)
Definition on_error (errors : errors_policy) (reason : string)
  (resume : exn + list Z) : exn + list Z :=
  match errors with
  | Strict => inl (UnicodeDecodeError reason)
  | Ignore => resume
  end.

Definition emit (c : Z) (rest : exn + list Z) : exn + list Z :=
  match rest with
  | inl e => inl e
  | inr l => inr (c :: l)
  end.

(** [bytes.decode('utf-8', errors)]: the code points of the text.  At an
    ill-formed sequence the bytes skipped are the longest prefix of a
    well-formed sequence (one byte at least), as CPython's decoder does;
    decoding resumes right after them. *)
Fixpoint utf8_decode (errors : errors_policy) (bs : list byte) {struct bs}
  : exn + list Z :=
  match bs with
  | [] => inr []
  | b0 :: r0 =>
    let v0 := byte_val b0 in
    if (v0 <? 128)%Z then emit v0 (utf8_decode errors r0)
    else
      match lead_info v0 with
      | None => on_error errors "invalid start byte" (utf8_decode errors r0)
      | Some (n, lo, hi) =>
        match r0 with
        | [] => on_error errors "unexpected end of data" (inr [])
        | b1 :: r1 =>
          let v1 := byte_val b1 in
          if negb (in_range lo hi v1)
          then on_error errors "invalid continuation byte"
                 (utf8_decode errors r0)
          else
            match n with
            | 1%nat => emit (cp2 v0 v1) (utf8_decode errors r1)
            | _ =>
              match r1 with
              | [] => on_error errors "unexpected end of data" (inr [])
              | b2 :: r2 =>
                let v2 := byte_val b2 in
                if negb (is_cont v2)
                then on_error errors "invalid continuation byte"
                       (utf8_decode errors r1)
                else
                  match n with
                  | 2%nat => emit (cp3 v0 v1 v2) (utf8_decode errors r2)
                  | _ =>
                    match r2 with
                    | [] =>
                        on_error errors "unexpected end of data" (inr [])
                    | b3 :: r3 =>
                      let v3 := byte_val b3 in
                      if negb (is_cont v3)
                      then on_error errors "invalid continuation byte"
                             (utf8_decode errors r2)
                      else emit (cp4 v0 v1 v2 v3) (utf8_decode errors r3)
                    end
                  end
              end
            end
        end
      end
  end.

Definition LF : Z := 10%Z.
Definition CR : Z := 13%Z.

(** Universal newlines ([newline=None]): on input, ["\r\n"] and a lone
    ["\r"] become ["\n"]. *)
Fixpoint translate_newlines (s : list Z) : list Z :=
  match s with
  | [] => []
  | c :: r =>
    if (c =? CR)%Z then
      LF :: match r with
            | c2 :: r2 =>
                if (c2 =? LF)%Z then translate_newlines r2
                else translate_newlines r
            | [] => []
            end
    else c :: translate_newlines r
  end.

(** The lines a text file object yields when iterated: each one runs up to
    and including its ["\n"]; what follows the last ["\n"] is a line of
    its own when it is not empty.  [cur] is the line being read, newest
    character first. *)
Fixpoint lines_from (cur : list Z) (s : list Z) : list (list Z) :=
  match s with
  | [] => match cur with [] => [] | _ => [rev cur] end
  | c :: r =>
    if (c =? LF)%Z then rev (c :: cur) :: lines_from [] r
    else lines_from (c :: cur) r
  end.

Definition readlines (s : list Z) : list (list Z) := lines_from [] s.

(** [f = open(..., 'r', encoding='utf-8', errors=errors)] read to the end:
    the lines of the decoded, newline-translated text. *)
Definition text_lines (errors : errors_policy) (data : list byte)
  : exn + list (list Z) :=
  match utf8_decode errors data with
  | inl e => inl e
  | inr txt => inr (readlines (translate_newlines txt))
  end.

(* ================================================================== *)
(** ** The file system *)

(** What [open] followed by reading to the end does to a file: it yields
    the file's bytes, or raises (no permission, the file vanished, an I/O
    error, not a regular file); [cause] is the text of the exception. *)
Inductive file_state : Type :=
| Readable (data : list byte)
| Unreadable (cause : string).

#[local] Set Warnings "-register-all".

(** A directory tree.  A directory holds its entries in the order
    [os.scandir] returns them; [scan_error] is [Some msg] when listing the
    directory raises [OSError msg] (its entries are there all the same).
    A symbolic link holds what it points to. *)
Inductive node : Type :=
| File (f : file_state)
| Dir (scan_error : option string) (entries : list (string * node))
| Symlink (target : node).

(** Following symbolic links, as [stat], [open] and [scandir] do. *)
Fixpoint resolve (n : node) : node :=
  match n with
  | Symlink t => resolve t
  | _ => n
  end.

(** [os.path.isdir] and [DirEntry.is_dir()]: both follow links. *)
Definition is_dir (n : node) : bool :=
  match resolve n with
  | Dir _ _ => true
  | _ => false
  end.

(** [os.path.islink]. *)
Definition islink (n : node) : bool :=
  match n with
  | Symlink _ => true
  | _ => false
  end.

(** [os.scandir(top)] run to the end. *)
Definition scandir (n : node) : exn + list (string * node) :=
  match resolve n with
  | Dir None es => inr es
  | Dir (Some msg) _ => inl (OSError msg)
  | _ => inl (OSError "Not a directory")
  end.

(** Opening the file at a node and reading all of it. *)
Definition read_bytes (n : node) : exn + list byte :=
  match resolve n with
  | File (Readable data) => inr data
  | File (Unreadable cause) => inl (OSError cause)
  | _ => inl (OSError "Is a directory")
  end.

(** [str.startswith], [str.endswith] with one suffix and with a tuple. *)
Definition startswith (s pre : string) : bool := String.prefix pre s.

Definition endswith (s suffix : string) : bool :=
  let n := String.length s in
  let m := String.length suffix in
  (m <=? n)%nat && String.eqb (substring (n - m) m s) suffix.

Definition endswith_any (s : string) (suffixes : list string) : bool :=
  existsb (endswith s) suffixes.

(** [os.path.join(a, b)] of [posixpath]. *)
Definition join (a b : string) : string :=
  if startswith b "/" then b
  else if String.eqb a "" || endswith a "/" then a ++ b
  else a ++ "/" ++ b.

(** One triple [(dirpath, dirnames, filenames)] yielded by [os.walk].
    Each name comes with the node it names in [dirpath]: that is the node
    [open(os.path.join(dirpath, fname))] reaches. *)
Record walk_item : Type := {
  dirpath : string;
  dirnames : list (string * node);
  filenames : list (string * node)
}.

(** [os.walk(top)], [topdown=True], [onerror=None], [followlinks=False]:
    a directory that cannot be scanned yields nothing and the error is
    dropped; the entries are split by [is_dir()]; the triple of a
    directory comes before those of its subdirectories, which are visited
    in listing order unless they are symbolic links.  The recursion is on
    the tree; [walk_scandir] states it through [scandir]. *)
Fixpoint walk (top : string) (n : node) {struct n} : list walk_item :=
  match n with
  | Dir None es =>
      {| dirpath := top;
         dirnames := filter (fun e => is_dir (snd e)) es;
         filenames := filter (fun e => negb (is_dir (snd e))) es |}
      :: flat_map
           (fun e =>
              if is_dir (snd e) && negb (islink (snd e))
              then walk (join top (fst e)) (snd e)
              else [])
           es
  | Dir (Some _) _ => []
  | File _ => []
  | Symlink t => walk top t
  end.

(** The paths the program is given name nodes through [fs]; [None] is a
    path that does not exist or cannot be reached. *)
Definition filesystem : Type := string -> option node.

Definition isdir (fs : filesystem) (d : string) : bool :=
  match fs d with
  | Some n => is_dir n
  | None => false
  end.

Definition os_walk (fs : filesystem) (top : string) : list walk_item :=
  match fs top with
  | Some n => walk top n
  | None => []
  end.

(* ================================================================== *)
(** ** The program *)

Definition lift {A} (r : exn + A) : IO A := ([], r).

(** Lines 17-18: [with open(path, 'r', encoding='utf-8', errors=errors)
    as f: lines = sum(1 for _ in f)].  The script passes ['ignore']. *)
Definition read_line_count (errors : errors_policy) (n : node) : exn + nat :=
  match read_bytes n with
  | inl e => inl e
  | inr data =>
    match text_lines errors data with
    | inl e => inl e
    | inr ls => inr (List.length ls)
    end
  end.

Local Open Scope io_scope.

(** Lines 12-29, the body of the inner loop; the loop-carried variables
    are [(cpp_lines, hpp_lines)]. *)
Definition file_step (errors : errors_policy) (dirpath : string)
  (st : nat * nat) (entry : string * node) : IO (nat * nat) :=
  let '(cpp_lines, hpp_lines) := st in
  let '(fname, nd) := entry in
  if negb (endswith_any fname [".cpp"; ".hpp"]) then ret st
  else
    let path := join dirpath fname in
    r <- try_except
           (lines <- lift (read_line_count errors nd) ;; ret (Some lines))
           (fun e => print (EWarning path (str e)) ;; ret None) ;;
    match r with
    | None => ret st
    | Some lines =>
        print (EFile path lines) ;;
        if endswith fname ".cpp" then ret (cpp_lines + lines, hpp_lines)%nat
        else ret (cpp_lines, hpp_lines + lines)%nat
    end.

(** Lines 10-29 for one triple of the walk. *)
Definition dir_step (errors : errors_policy) (st : nat * nat)
  (item : walk_item) : IO (nat * nat) :=
  for_each (filenames item) st (file_step errors (dirpath item)).

(** Lines 6-31 over a given walk. *)
Definition count_walk (errors : errors_policy) (items : list walk_item)
  : IO (nat * nat) :=
  for_each items (0, 0)%nat (dir_step errors).

(** [count_lines(root)], lines 6-31. *)
Definition count_lines (fs : filesystem) (root : string) : IO (nat * nat) :=
  count_walk Ignore (os_walk fs root).

(** Lines 49-58, the body of the loop over [args.dirs]; the loop-carried
    variables are [(total_cpp, total_hpp)]. *)
Definition root_step (fs : filesystem) (st : nat * nat) (d : string)
  : IO (nat * nat) :=
  let '(total_cpp, total_hpp) := st in
  if negb (isdir fs d) then
    print (EError d) ;; ret st
  else
    print (EScanning d) ;;
    ' (cpp, hpp) <- count_lines fs d ;;
    print (ESummary d cpp hpp (cpp + hpp)) ;;
    ret (total_cpp + cpp, total_hpp + hpp)%nat.

(** Lines 38-44: the positional argument [dirs], [nargs='*'] with
    [default=['.']].  [given] are the positional arguments of the command
    line; a command line with options ([-h], an unknown option) makes
    [argparse] leave before the loop and is not modelled. *)
Definition parse_dirs (given : list string) : list string :=
  match given with
  | [] => ["."]
  | _ => given
  end.

(** [main()], lines 33-63, on the positional arguments [given]. *)
Definition main (fs : filesystem) (given : list string) : IO unit :=
  let dirs := parse_dirs given in
  ' (total_cpp, total_hpp) <- for_each dirs (0, 0)%nat (root_step fs) ;;
  let grand_total := (total_cpp + total_hpp)%nat in
  if (1 <? List.length dirs)%nat then
    print ESeparator ;;
    print (ETotal (List.length dirs) total_cpp total_hpp grand_total)
  else ret tt.

(* ------------------------------------------------------------------ *)
(** *** The per-file line on a standard output that encodes *)

(** A text standard output can write: with UTF-8 and the ['strict']
    handler, the default of [sys.stdout], everything but lone
    surrogates.  [os.walk] hands over a file name whose bytes are not
    UTF-8 with those bytes as lone surrogates, so a path can be written
    exactly when its bytes are well-formed UTF-8. *)
Definition utf8_encodable (path : string) : bool :=
  match utf8_decode Strict (list_byte_of_string path) with
  | inr _ => true
  | inl _ => false
  end.

(** Line 24, [print(f"{path}: {lines} lines")], on a standard output that
    can encode the paths [can_encode] accepts (the rest of the line is
    ASCII): the line is written, or [UnicodeEncodeError] is raised and
    nothing is written. *)
Definition print_file_line (can_encode : string -> bool) (path : string)
  (lines : nat) : IO unit :=
  if can_encode path then print (EFile path lines)
  else lift (inl (UnicodeEncodeError "surrogates not allowed")).

(** Lines 12-29 with line 24 as [print_file_line].  The warning of line
    20 goes to the error stream with the path under [repr], which writes
    a lone surrogate as an escape: it is written in every case.  Line 24
    stands after the [try] statement: what it raises leaves the loop. *)
Definition file_step_enc (can_encode : string -> bool)
  (errors : errors_policy) (dirpath : string)
  (st : nat * nat) (entry : string * node) : IO (nat * nat) :=
  let '(cpp_lines, hpp_lines) := st in
  let '(fname, nd) := entry in
  if negb (endswith_any fname [".cpp"; ".hpp"]) then ret st
  else
    let path := join dirpath fname in
    r <- try_except
           (lines <- lift (read_line_count errors nd) ;; ret (Some lines))
           (fun e => print (EWarning path (str e)) ;; ret None) ;;
    match r with
    | None => ret st
    | Some lines =>
        print_file_line can_encode path lines ;;
        if endswith fname ".cpp" then ret (cpp_lines + lines, hpp_lines)%nat
        else ret (cpp_lines, hpp_lines + lines)%nat
    end.

Definition dir_step_enc (can_encode : string -> bool)
  (errors : errors_policy) (st : nat * nat) (item : walk_item)
  : IO (nat * nat) :=
  for_each (filenames item) st
    (file_step_enc can_encode errors (dirpath item)).

Definition count_walk_enc (can_encode : string -> bool)
  (errors : errors_policy) (items : list walk_item) : IO (nat * nat) :=
  for_each items (0, 0)%nat (dir_step_enc can_encode errors).

(** [count_lines(root)], lines 6-31, on a standard output that can
    encode the paths [can_encode] accepts. *)
Definition count_lines_enc (can_encode : string -> bool) (fs : filesystem)
  (root : string) : IO (nat * nat) :=
  count_walk_enc can_encode Ignore (os_walk fs root).

Local Close Scope io_scope.

(* ================================================================== *)
(** ** Notions the properties are stated with *)

(** One step of [utf8_decode] seen from outside: the scalar value decoded
    or the reason the head is ill-formed, and the bytes decoding goes on
    with.  It has the case analysis of [utf8_decode] without the
    recursion; [utf8_decode_step] relates the two. *)
Definition decode_step (bs : list byte) : option ((Z + string) * list byte) :=
  match bs with
  | [] => None
  | b0 :: r0 =>
    let v0 := byte_val b0 in
    if (v0 <? 128)%Z then Some (inl v0, r0)
    else
      match lead_info v0 with
      | None => Some (inr "invalid start byte", r0)
      | Some (n, lo, hi) =>
        match r0 with
        | [] => Some (inr "unexpected end of data", [])
        | b1 :: r1 =>
          let v1 := byte_val b1 in
          if negb (in_range lo hi v1)
          then Some (inr "invalid continuation byte", r0)
          else
            match n with
            | 1%nat => Some (inl (cp2 v0 v1), r1)
            | _ =>
              match r1 with
              | [] => Some (inr "unexpected end of data", [])
              | b2 :: r2 =>
                let v2 := byte_val b2 in
                if negb (is_cont v2)
                then Some (inr "invalid continuation byte", r1)
                else
                  match n with
                  | 2%nat => Some (inl (cp3 v0 v1 v2), r2)
                  | _ =>
                    match r2 with
                    | [] => Some (inr "unexpected end of data", [])
                    | b3 :: r3 =>
                      let v3 := byte_val b3 in
                      if negb (is_cont v3)
                      then Some (inr "invalid continuation byte", r2)
                      else Some (inl (cp4 v0 v1 v2 v3), r3)
                    end
                  end
              end
            end
        end
      end
  end.

(** [kept] is [all] with some elements left out, order preserved. *)
Inductive subseq {A : Type} : list A -> list A -> Prop :=
| subseq_nil : subseq [] []
| subseq_keep : forall x kept all,
    subseq kept all -> subseq (x :: kept) (x :: all)
| subseq_drop : forall x kept all,
    subseq kept all -> subseq kept (x :: all).

(** A byte that is a line terminator for a text file read with universal
    newlines: line feed or carriage return. *)
Definition is_line_break (b : byte) : bool :=
  ((byte_val b =? LF) || (byte_val b =? CR))%Z.

Definition no_line_break (l : list byte) : bool :=
  forallb (fun b => negb (is_line_break b)) l.

(** The bytes of a file made of the lines [ls], each ended by ["\n"]. *)
Definition terminated_lines (ls : list (list byte)) : list byte :=
  flat_map (fun l => l ++ [x0a]) ls.

(** The text of [data] under ['ignore'] ([utf8_decode_ignore] shows that
    decoding does not fail then). *)
Definition decoded (data : list byte) : list Z :=
  match utf8_decode Ignore data with
  | inr t => t
  | inl _ => []
  end.

(** Some text is left of [data] after decoding with ['ignore']. *)
Definition has_text (data : list byte) : bool :=
  match decoded data with
  | _ :: _ => true
  | [] => false
  end.

(** A character that is neither a line feed nor a carriage return. *)
Definition not_break (c : Z) : Prop := c <> LF /\ c <> CR.

(** [sum(1 for _ in f)] on a file whose decoded text is [t]. *)
Definition line_count (t : list Z) : nat :=
  List.length (readlines (translate_newlines t)).

(** Every entry of the subtree of [n] that is not a directory, in listing
    order, the entries of a subdirectory at the place of that
    subdirectory.  A directory that cannot be listed shows none; a
    symbolic link to a directory is an entry of the tree, what it points
    to is not part of the subtree. *)
Fixpoint files_under (n : node) : list (string * node) :=
  match n with
  | Dir None es =>
      flat_map
        (fun e =>
           if is_dir (snd e)
           then (if islink (snd e) then [] else files_under (snd e))
           else [e])
        es
  | Dir (Some _) _ => []
  | File _ => []
  | Symlink t => files_under t
  end.

Definition files_of (fs : filesystem) (root : string)
  : list (string * node) :=
  match fs root with
  | Some n => files_under n
  | None => []
  end.

(** The line count of a file entry when reading it succeeds, [0] when it
    does not. *)
Definition lines_read (e : string * node) : nat :=
  match read_line_count Ignore (snd e) with
  | inr k => k
  | inl _ => 0%nat
  end.

(** The sum of the line counts of the successfully-read files among
    [files] whose names end with [suffix]. *)
Definition category_total (suffix : string) (files : list (string * node))
  : nat :=
  list_sum (map lines_read (filter (fun e => endswith (fst e) suffix) files)).

(** What the inner loop prints for the file names of one directory: a
    per-file line for a matching file that was read, a warning for one
    that was not, nothing for the others. *)
Definition file_events (dirpath : string) (files : list (string * node))
  : list event :=
  flat_map
    (fun e =>
       if endswith_any (fst e) [".cpp"; ".hpp"] then
         match read_line_count Ignore (snd e) with
         | inr k => [EFile (join dirpath (fst e)) k]
         | inl ex => [EWarning (join dirpath (fst e)) (str ex)]
         end
       else [])
    files.

Definition walk_events (items : list walk_item) : list event :=
  flat_map (fun it => file_events (dirpath it) (filenames it)) items.

(** The counts of the per-file lines of a trace. *)
Definition printed_counts (t : list event) : list nat :=
  flat_map (fun e => match e with EFile _ k => [k] | _ => [] end) t.


Definition matching (fname : string) : bool :=
  endswith_any fname [".cpp"; ".hpp"].


(** A directory that cannot be listed. *)
Definition unlistable (n : node) : bool :=
  match n with
  | Dir (Some _) _ => true
  | _ => false
  end.

(** The tree without its unlistable subdirectories, at every depth. *)
Fixpoint without_unlistable (n : node) : node :=
  match n with
  | File f => File f
  | Dir se es =>
      Dir se
        (flat_map
           (fun e =>
              if unlistable (snd e) then []
              else [(fst e, without_unlistable (snd e))])
           es)
  | Symlink t => Symlink (without_unlistable t)
  end.

(** What [count_lines] prints and returns for a root. *)
Definition scan_trace (fs : filesystem) (d : string) : list event :=
  trace (count_lines fs d).

Definition scan_totals (fs : filesystem) (d : string) : nat * nat :=
  match outcome (count_lines fs d) with
  | inr p => p
  | inl _ => (0, 0)%nat
  end.

(** What one round of the loop of [main] prints for the root [d]. *)
Definition root_events (fs : filesystem) (d : string) : list event :=
  if isdir fs d then
    [EScanning d] ++ scan_trace fs d
    ++ [ESummary d (fst (scan_totals fs d)) (snd (scan_totals fs d))
          (fst (scan_totals fs d) + snd (scan_totals fs d))]
  else [EError d].

(** The roots of the argument list that are directories. *)
Definition valid_roots (fs : filesystem) (dirs : list string) : list string :=
  filter (isdir fs) dirs.


(** What the loops of [count_lines] look at in a triple of the walk: the
    directory path and the file names. *)
Definition file_view (it : walk_item) : string * list (string * node) :=
  (dirpath it, filenames it).

(** The sums of the totals of the valid roots among [dirs]. *)
Definition grand_totals (fs : filesystem) (dirs : list string) : nat * nat :=
  (list_sum (map (fun d => fst (scan_totals fs d)) (valid_roots fs dirs)),
   list_sum (map (fun d => snd (scan_totals fs d)) (valid_roots fs dirs))).

(* ------------------------------------------------------------------ *)
(** *** Concrete trees *)

Definition bytes (s : string) : list byte := list_byte_of_string s.

(** [proj/] of the scenario: [x.cpp] with 3 lines, [sub/y.hpp] with 5,
    [readme.md]; and next to them a file that cannot be read, a
    directory that cannot be listed and a link to a directory. *)
Definition proj : node :=
  Dir None
    [ ("x.cpp", File (Readable (bytes ("1" ++ nl ++ "2" ++ nl ++ "3" ++ nl))));
      ("sub", Dir None
         [ ("y.hpp", File (Readable
              (bytes ("1" ++ nl ++ "2" ++ nl ++ "3" ++ nl ++ "4" ++ nl ++ "5")))) ]);
      ("readme.md", File (Readable (bytes "hello")));
      ("gone.hpp", File (Unreadable "[Errno 2] No such file or directory"));
      ("locked", Dir (Some "[Errno 13] Permission denied")
         [ ("z.cpp", File (Readable (bytes "zz"))) ]);
      ("ln", Symlink (Dir None [ ("w.cpp", File (Readable (bytes "ww"))) ])) ].

Definition lib : node :=
  Dir None [ ("u.hpp", File (Readable (bytes ("u" ++ nl)))) ].

(** A file system with directories ["a"] and ["b"] and nothing else. *)
Definition fs_ab : filesystem :=
  fun p =>
    if String.eqb p "a" then Some proj
    else if String.eqb p "b" then Some lib
    else None.

(** Python's [repr] on names made of printable ASCII characters other than
    the quote and the backslash. *)
Definition repr_plain (s : string) : string := "'" ++ s ++ "'".

(** A file system whose only directory, ["locked"], cannot be listed. *)
Definition fs_locked : filesystem :=
  fun p =>
    if String.eqb p "locked"
    then Some (Dir (Some "[Errno 13] Permission denied")
                 [ ("z.cpp", File (Readable (bytes "zz"))) ])
    else None.

(** A directory ["r"] with a file whose name holds a byte that is not
    UTF-8, between two files with plain names. *)
Definition fs_rawname : filesystem :=
  fun p =>
    if String.eqb p "r"
    then Some (Dir None
           [ ("ok.cpp", File (Readable (bytes ("1" ++ nl))));
             (String (ascii_of_nat 255) ".cpp",
              File (Readable (bytes ("x" ++ nl))));
             ("z.hpp", File (Readable (bytes ("z" ++ nl)))) ])
    else None.

(* ================================================================== *)
(** ** Further notions *)






(** The roots named by the error lines, by the banners and by the
    summaries of a trace, in the order of the trace. *)
Definition error_roots (t : list event) : list string :=
  flat_map (fun e => match e with EError d => [d] | _ => [] end) t.

Definition scanned_roots (t : list event) : list string :=
  flat_map (fun e => match e with EScanning d => [d] | _ => [] end) t.

Definition summarized_roots (t : list event) : list string :=
  flat_map (fun e => match e with ESummary d _ _ _ => [d] | _ => [] end) t.

(** The three numbers of every summary line of a trace. *)
Definition summaries (t : list event) : list (nat * nat * nat) :=
  flat_map
    (fun e => match e with ESummary _ c h s => [(c, h, s)] | _ => [] end)
    t.

(** The path a per-file line or a warning is about. *)
Definition event_path (e : event) : option string :=
  match e with
  | EFile path _ => Some path
  | EWarning path _ => Some path
  | _ => None
  end.

(** No entry name of the tree starts with a slash (no name of a real
    directory entry holds one). *)
Fixpoint plain_names (n : node) : bool :=
  match n with
  | File _ => true
  | Dir _ es =>
      forallb
        (fun e => negb (startswith (fst e) "/") && plain_names (snd e))
        es
  | Symlink t => plain_names t
  end.

(** The tree without the entries that are symbolic links to directories,
    at every depth. *)
Fixpoint without_dir_links (n : node) : node :=
  match n with
  | File f => File f
  | Dir se es =>
      Dir se
        (flat_map
           (fun e =>
              if islink (snd e) && is_dir (snd e) then []
              else [(fst e, without_dir_links (snd e))])
           es)
  | Symlink t => Symlink (without_dir_links t)
  end.


(** The bytes of a file made of the lines [ls], each ended by ["\r\n"]. *)
Definition crlf_lines (ls : list (list byte)) : list byte :=
  flat_map (fun l => l ++ [x0d; x0a]) ls.

(** A tree with no [.cpp] and no [.hpp] file. *)
Definition notes : node :=
  Dir None
    [ ("readme.md", File (Readable (bytes ("hello" ++ nl))));
      ("cpp", Dir None
         [ ("main.c", File (Readable (bytes "int main;")));
           ("x.cpp.bak", File (Readable (bytes "old")));
           ("X.CPP", File (Readable (bytes "upper"))) ]) ].

Definition fs_notes : filesystem :=
  fun p => if String.eqb p "notes" then Some notes else None.


(** The entry names of the tree at [root] are plain. *)
Definition plain_root (fs : filesystem) (root : string) : bool :=
  match fs root with
  | Some n => plain_names n
  | None => true
  end.

(** The listing of a directory node. *)
Definition entries_of (n : node) : list (string * node) :=
  match n with
  | Dir _ es => es
  | _ => []
  end.

(* ================================================================== *)
(** * Properties *)

(** ** The decoder *)

Lemma byte_val_range (b : byte) : (0 <= byte_val b < 256)%Z.
Proof.
  unfold byte_val. pose proof (Byte.to_N_bounded b). lia.
Qed.

Lemma utf8_decode_step (errors : errors_policy) (bs : list byte) :
  utf8_decode errors bs =
  match decode_step bs with
  | None => inr []
  | Some (inl c, rest) => emit c (utf8_decode errors rest)
  | Some (inr reason, rest) => on_error errors reason (utf8_decode errors rest)
  end.
Proof.
  destruct bs as [|b0 r0]; [reflexivity|].
  cbn [utf8_decode decode_step].
  destruct (byte_val b0 <? 128)%Z; [reflexivity|].
  destruct (lead_info (byte_val b0)) as [[[n lo] hi]|]; [|reflexivity].
  destruct r0 as [|b1 r1]; [reflexivity|].
  destruct (negb (in_range lo hi (byte_val b1))); [reflexivity|].
  destruct n as [|[|n]]; try reflexivity.
  - destruct r1 as [|b2 r2]; [reflexivity|].
    destruct (negb (is_cont (byte_val b2))); [reflexivity|].
    destruct r2 as [|b3 r3]; [reflexivity|].
    destruct (negb (is_cont (byte_val b3))); reflexivity.
  - destruct r1 as [|b2 r2]; [reflexivity|].
    destruct (negb (is_cont (byte_val b2))); [reflexivity|].
    destruct n as [|n]; [reflexivity|].
    destruct r2 as [|b3 r3]; [reflexivity|].
    destruct (negb (is_cont (byte_val b3))); reflexivity.
Qed.

Lemma lead_info_spec (v : Z) (n : nat) (lo hi : Z) :
  lead_info v = Some (n, lo, hi) ->
  (128 <= lo /\ hi <= 191 /\ 194 <= v /\ (1 <= n <= 3)%nat /\
   (n = 2%nat -> 224 <= v /\ (225 <= v \/ 160 <= lo)) /\
   (n = 3%nat -> 240 <= v /\ (241 <= v \/ 144 <= lo)))%Z.
Proof.
  unfold lead_info, in_range.
  repeat match goal with
         | |- context [if ?c then _ else _] => destruct c eqn:?
         end;
    intros H; inversion H; subst; lia.
Qed.

Ltac break_step H :=
  repeat match type of H with
         | context [match lead_info ?v with _ => _ end] =>
             let L := fresh "L" in
             destruct (lead_info v) as [[[? ?] ?]|] eqn:L
         | context [if ?c then _ else _] =>
             let E := fresh "E" in destruct c eqn:E
         | context [match ?l with [] => _ | _ :: _ => _ end] =>
             destruct l as [|? ?]
         | context [match ?n with O => _ | S _ => _ end] =>
             destruct n
         end.

Ltac reuse_tests :=
  repeat match goal with
         | E : ?c = _ |- context [?c] => rewrite E
         end.

Lemma decode_step_split (bs : list byte) (x : Z + string) (rest : list byte) :
  decode_step bs = Some (x, rest) ->
  exists pre,
    pre <> [] /\ bs = pre ++ rest /\
    (forall c, x = inl c ->
       forall r', decode_step (pre ++ r') = Some (inl c, r')).
Proof.
  intros H. destruct bs as [|b0 r0]; [discriminate|].
  cbn [decode_step] in H. break_step H;
    inversion H; subst; clear H;
    match goal with
    | |- exists pre, _ /\ [?a] = pre ++ [] /\ _ => exists [a]
    | |- exists pre, _ /\ [?a; ?b] = pre ++ [] /\ _ => exists [a; b]
    | |- exists pre, _ /\ [?a; ?b; ?c] = pre ++ [] /\ _ => exists [a; b; c]
    | |- exists pre, _ /\ ?a :: ?r = pre ++ ?r /\ _ => exists [a]
    | |- exists pre, _ /\ ?a :: ?b :: ?r = pre ++ ?r /\ _ => exists [a; b]
    | |- exists pre, _ /\ ?a :: ?b :: ?c :: ?r = pre ++ ?r /\ _ =>
        exists [a; b; c]
    | |- exists pre, _ /\ ?a :: ?b :: ?c :: ?d :: ?r = pre ++ ?r /\ _ =>
        exists [a; b; c; d]
    end;
    (split; [discriminate|]; split; [reflexivity|]);
    intros c' Hc; inversion Hc; subst; intros r';
    cbn [app decode_step]; reuse_tests; reflexivity.
Qed.

Lemma decode_step_shorter (bs : list byte) (x : Z + string) (rest : list byte) :
  decode_step bs = Some (x, rest) -> (List.length rest < List.length bs)%nat.
Proof.
  intros H. destruct (decode_step_split _ _ _ H) as (pre & Hne & -> & _).
  rewrite length_app. destruct pre; [congruence|cbn; lia].
Qed.

(** A decoded scalar is the head byte itself when that is below 128, and is
    at least 128 otherwise. *)
Lemma decode_step_scalar (b0 : byte) (r0 : list byte) (c : Z)
  (rest : list byte) :
  decode_step (b0 :: r0) = Some (inl c, rest) ->
  ((byte_val b0 < 128 /\ c = byte_val b0 /\ rest = r0) \/
   (128 <= byte_val b0 /\ 128 <= c))%Z.
Proof.
  intros H. cbn [decode_step] in H.
  destruct (byte_val b0 <? 128)%Z eqn:E0.
  - inversion H; subst. left. repeat split; lia.
  - right. split; [lia|].
    destruct (lead_info (byte_val b0)) as [[[n lo] hi]|] eqn:L;
      [|discriminate].
    apply lead_info_spec in L.
    break_step H; inversion H; subst; clear H;
      unfold is_cont, in_range in *;
      repeat match goal with
             | E : negb _ = false |- _ => apply negb_false_iff in E
             | E : (_ && _)%bool = true |- _ => apply andb_prop in E; destruct E
             end;
      unfold cp2, cp3, cp4; lia.
Qed.

(** A byte below 128 put after [l] ends whatever sequence was open at the
    end of [l]: the step at the head of [l] is the same, with the same
    rest. *)
Lemma decode_step_app_ascii (l : list byte) (b : byte) (r : list byte)
  (x : Z + string) (rest : list byte) :
  (byte_val b < 128)%Z ->
  decode_step l = Some (x, rest) ->
  exists x',
    decode_step (l ++ b :: r) = Some (x', rest ++ b :: r) /\
    (forall c, x = inl c -> x' = inl c) /\
    (forall s, x = inr s -> exists s', x' = inr s').
Proof.
  intros Hb H. destruct l as [|b0 r0]; [discriminate|].
  assert (Hcont : is_cont (byte_val b) = false)
    by (unfold is_cont, in_range; pose proof (byte_val_range b); lia).
  cbn [decode_step] in H.
  destruct (byte_val b0 <? 128)%Z eqn:E0.
  { inversion H; subst. eexists. cbn [app decode_step]. rewrite E0.
    split; [reflexivity|]. split; [auto|]. intros; discriminate. }
  destruct (lead_info (byte_val b0)) as [[[n lo] hi]|] eqn:L.
  2:{ inversion H; subst. eexists. cbn [app decode_step]. rewrite E0, L.
      split; [reflexivity|]. split; [intros; discriminate|]. eauto. }
  assert (Hlo : in_range lo hi (byte_val b) = false)
    by (apply lead_info_spec in L; unfold in_range; lia).
  break_step H; inversion H; subst; clear H;
    cbn [app decode_step]; reuse_tests; cbn [negb];
    eexists; (split; [reflexivity|]);
    (split; [intros; first [discriminate | assumption]
            | intros; first [discriminate | eauto]]).
Qed.

(** Induction along the steps of the decoder. *)
Lemma decode_ind (P : list byte -> Prop) :
  P [] ->
  (forall bs x rest, decode_step bs = Some (x, rest) -> P rest -> P bs) ->
  forall bs, P bs.
Proof.
  intros Hnil Hstep bs.
  remember (List.length bs) as n eqn:Hn.
  revert bs Hn. induction n as [n IH] using lt_wf_ind. intros bs Hn.
  destruct (decode_step bs) as [[x rest]|] eqn:E.
  - apply (Hstep bs x rest E).
    apply (IH (List.length rest)); [|reflexivity].
    subst n. eapply decode_step_shorter; eassumption.
  - destruct bs; [assumption|].
    cbn [decode_step] in E. break_step E; discriminate.
Qed.


Lemma utf8_decode_ignore (bs : list byte) :
  utf8_decode Ignore bs = inr (decoded bs).
Proof.
  induction bs as [|bs x rest E IH] using decode_ind; [reflexivity|].
  unfold decoded. rewrite (utf8_decode_step Ignore bs), E.
  destruct x as [c|reason]; cbn [on_error]; rewrite IH; reflexivity.
Qed.

Lemma decoded_step (bs : list byte) :
  decoded bs =
  match decode_step bs with
  | None => []
  | Some (inl c, rest) => c :: decoded rest
  | Some (inr _, rest) => decoded rest
  end.
Proof.
  unfold decoded at 1. rewrite utf8_decode_step.
  destruct (decode_step bs) as [[[c|reason] rest]|]; cbn [on_error];
    rewrite ?utf8_decode_ignore; reflexivity.
Qed.

Lemma decoded_app_ascii (l : list byte) (b : byte) (r : list byte) :
  (byte_val b < 128)%Z ->
  decoded (l ++ b :: r) = decoded l ++ byte_val b :: decoded r.
Proof.
  intros Hb. induction l as [|l x rest E IH] using decode_ind.
  - cbn [app]. rewrite (decoded_step (b :: r)). cbn [decode_step].
    destruct (Z.ltb_spec (byte_val b) 128); [reflexivity|lia].
  - destruct (decode_step_app_ascii l b r x rest Hb E) as (x' & E' & Hc & Hs).
    rewrite (decoded_step (l ++ b :: r)), E', (decoded_step l), E.
    destruct x as [c|s].
    + rewrite (Hc c eq_refl). cbn [app]. now rewrite IH.
    + destruct (Hs s eq_refl) as [s' ->]. exact IH.
Qed.


Lemma decoded_no_line_break (l : list byte) :
  no_line_break l = true -> Forall not_break (decoded l).
Proof.
  induction l as [|l x rest E IH] using decode_ind; intros Hl.
  - constructor.
  - rewrite decoded_step, E.
    destruct (decode_step_split _ _ _ E) as (pre & Hne & -> & _).
    unfold no_line_break in Hl. rewrite forallb_app in Hl.
    apply andb_prop in Hl. destruct Hl as [Hpre Hrest].
    specialize (IH Hrest).
    destruct x as [c|s]; [|exact IH].
    constructor; [|exact IH].
    destruct pre as [|b0 pre']; [congruence|].
    apply decode_step_scalar in E.
    cbn [forallb] in Hpre. apply andb_prop in Hpre. destruct Hpre as [Hb0 _].
    unfold is_line_break in Hb0. apply negb_true_iff, orb_false_iff in Hb0.
    unfold not_break, LF, CR in *.
    destruct E as [(? & -> & _)|[_ ?]]; lia.
Qed.

Lemma subseq_refl {A} (l : list A) : subseq l l.
Proof. induction l; constructor; assumption. Qed.

Lemma subseq_app_keep {A} (pre kept all : list A) :
  subseq kept all -> subseq (pre ++ kept) (pre ++ all).
Proof. intros H. induction pre; [assumption|constructor; assumption]. Qed.

Lemma subseq_app_drop {A} (pre kept all : list A) :
  subseq kept all -> subseq kept (pre ++ all).
Proof. intros H. induction pre; [assumption|constructor; assumption]. Qed.

Lemma decoded_strict_subseq (bs : list byte) :
  exists kept, subseq kept bs /\ utf8_decode Strict kept = inr (decoded bs).
Proof.
  induction bs as [|bs x rest E IH] using decode_ind.
  - exists []. split; [constructor|reflexivity].
  - destruct IH as (kept & Hsub & Hdec).
    destruct (decode_step_split _ _ _ E) as (pre & Hne & -> & Hscalar).
    rewrite decoded_step, E. destruct x as [c|s].
    + exists (pre ++ kept). split; [apply subseq_app_keep; assumption|].
      rewrite utf8_decode_step, (Hscalar c eq_refl kept), Hdec. reflexivity.
    + exists kept. split; [apply subseq_app_drop; assumption|assumption].
Qed.


Lemma not_break_tests (c : Z) :
  not_break c -> (c =? LF)%Z = false /\ (c =? CR)%Z = false.
Proof. unfold not_break. intros [? ?]. split; apply Z.eqb_neq; assumption. Qed.

Lemma translate_newlines_app_lf (t r : list Z) :
  Forall not_break t ->
  translate_newlines (t ++ LF :: r) = t ++ LF :: translate_newlines r.
Proof.
  induction 1 as [|c t Hc _ IH]; cbn [app translate_newlines].
  - reflexivity.
  - destruct (not_break_tests c Hc) as [_ ->]. now rewrite IH.
Qed.

Lemma translate_newlines_plain (t : list Z) :
  Forall not_break t -> translate_newlines t = t.
Proof.
  induction 1 as [|c t Hc _ IH]; cbn [translate_newlines]; [reflexivity|].
  destruct (not_break_tests c Hc) as [_ ->]. now rewrite IH.
Qed.

Lemma lines_from_app_lf (t r cur : list Z) :
  Forall not_break t ->
  lines_from cur (t ++ LF :: r) = rev (LF :: rev t ++ cur) :: lines_from [] r.
Proof.
  intros Ht. revert cur.
  induction Ht as [|c t Hc _ IH]; intros cur; cbn [app lines_from].
  - reflexivity.
  - destruct (not_break_tests c Hc) as [-> _]. rewrite IH.
    cbn [rev]. now rewrite <- app_assoc.
Qed.

Lemma lines_from_plain (t cur : list Z) :
  Forall not_break t -> t ++ cur <> [] ->
  lines_from cur t = [rev cur ++ t].
Proof.
  intros Ht. revert cur.
  induction Ht as [|c t Hc _ IH]; intros cur Hne; cbn [lines_from].
  - destruct cur; [contradiction|]. now rewrite app_nil_r.
  - destruct (not_break_tests c Hc) as [-> _].
    rewrite IH by (destruct t; discriminate).
    cbn [rev]. now rewrite <- app_assoc.
Qed.

Lemma line_count_app_lf (t r : list Z) :
  Forall not_break t -> line_count (t ++ LF :: r) = S (line_count r).
Proof.
  intros Ht. unfold line_count, readlines.
  rewrite translate_newlines_app_lf, lines_from_app_lf by assumption.
  reflexivity.
Qed.

Lemma line_count_plain (t : list Z) :
  Forall not_break t -> t <> [] -> line_count t = 1%nat.
Proof.
  intros Ht Hne. unfold line_count, readlines.
  rewrite translate_newlines_plain, lines_from_plain by
    (try assumption; rewrite app_nil_r; assumption).
  reflexivity.
Qed.

Lemma read_line_count_readable (data : list byte) :
  read_line_count Ignore (File (Readable data)) =
  inr (line_count (decoded data)).
Proof.
  unfold read_line_count, read_bytes, text_lines. cbn [resolve].
  now rewrite utf8_decode_ignore.
Qed.

Lemma line_count_terminated_lines (ls : list (list byte)) (rest : list byte) :
  forallb no_line_break ls = true ->
  line_count (decoded (terminated_lines ls ++ rest)) =
  (List.length ls + line_count (decoded rest))%nat.
Proof.
  induction ls as [|l ls IH]; intros Hls; [reflexivity|].
  cbn [forallb] in Hls. apply andb_prop in Hls. destruct Hls as [Hl Hls].
  unfold terminated_lines in *. cbn [flat_map List.length].
  rewrite <- !app_assoc. cbn [app].
  rewrite decoded_app_ascii by (vm_compute; reflexivity).
  change (byte_val x0a) with LF.
  rewrite line_count_app_lf by (apply decoded_no_line_break; assumption).
  now rewrite IH.
Qed.

(** C2.  A readable file made of N lines, each ended by a line feed,
    followed by a last line without one, counts N+1 lines; an empty file
    counts 0.  A line holds no line terminator (line feed or carriage
    return, which universal newlines end a line at as well), and some text
    is left of the last line after decoding. *)
Theorem per_file_line_count :
  (forall (ls : list (list byte)) (last : list byte),
     forallb no_line_break ls = true ->
     no_line_break last = true ->
     has_text last = true ->
     read_line_count Ignore (File (Readable (terminated_lines ls ++ last))) =
     inr (List.length ls + 1)%nat) /\
  read_line_count Ignore (File (Readable [])) = inr 0%nat.
Proof.
  split; [|reflexivity].
  intros ls last Hls Hlast Htext.
  rewrite read_line_count_readable, line_count_terminated_lines by assumption.
  rewrite line_count_plain; [reflexivity| |].
  - apply decoded_no_line_break; assumption.
  - unfold has_text in Htext. destruct (decoded last); discriminate.
Qed.

(** ** The traversal *)

(** *** Names and suffixes *)

Lemma endswith_eq (s suffix : string) :
  endswith s suffix = true ->
  substring (String.length s - String.length suffix) (String.length suffix) s
  = suffix.
Proof.
  unfold endswith. intros H. apply andb_prop in H. destruct H as [_ H].
  apply String.eqb_eq. exact H.
Qed.

Lemma suffixes_exclusive (fname : string) :
  endswith fname ".cpp" = true -> endswith fname ".hpp" = false.
Proof.
  intros Hc. destruct (endswith fname ".hpp") eqn:Hh; [|reflexivity].
  apply endswith_eq in Hc. apply endswith_eq in Hh.
  cbn [String.length] in Hc, Hh. rewrite Hc in Hh. discriminate.
Qed.

Lemma matching_cases (fname : string) :
  matching fname = endswith fname ".cpp" || endswith fname ".hpp".
Proof.
  unfold matching, endswith_any. cbn [existsb]. now rewrite orb_false_r.
Qed.

(** *** The inner loop *)

Lemma file_step_eq (dp : string) (c h : nat) (e : string * node) :
  file_step Ignore dp (c, h) e =
  if matching (fst e) then
    match read_line_count Ignore (snd e) with
    | inr k =>
        ([EFile (join dp (fst e)) k],
         inr (if endswith (fst e) ".cpp" then (c + k, h) else (c, h + k))%nat)
    | inl ex => ([EWarning (join dp (fst e)) (str ex)], inr (c, h))
    end
  else ([], inr (c, h)).
Proof.
  destruct e as [fname nd]. unfold file_step, matching. cbn [fst snd].
  destruct (endswith_any fname [".cpp"; ".hpp"]); cbn [negb]; [|reflexivity].
  destruct (read_line_count Ignore nd) as [ex|k]; cbn.
  - reflexivity.
  - destruct (endswith fname ".cpp"); reflexivity.
Qed.

Lemma category_total_sum (suffix : string) (files : list (string * node)) :
  category_total suffix files =
  list_sum (map (fun e => if endswith (fst e) suffix then lines_read e
                          else 0%nat) files).
Proof.
  unfold category_total, list_sum.
  induction files as [|e files IH]; [reflexivity|].
  cbn [filter map fold_right]. destruct (endswith (fst e) suffix);
    cbn [map fold_right]; rewrite IH; reflexivity.
Qed.

Lemma category_total_cons (suffix : string) (e : string * node)
  (files : list (string * node)) :
  category_total suffix (e :: files) =
  ((if endswith (fst e) suffix then lines_read e else 0) +
   category_total suffix files)%nat.
Proof. rewrite !category_total_sum. reflexivity. Qed.

Lemma category_total_nil (suffix : string) : category_total suffix [] = 0%nat.
Proof. reflexivity. Qed.

Lemma category_total_app (suffix : string) (l1 l2 : list (string * node)) :
  category_total suffix (l1 ++ l2) =
  (category_total suffix l1 + category_total suffix l2)%nat.
Proof.
  unfold category_total. now rewrite filter_app, map_app, list_sum_app.
Qed.

Lemma category_total_perm (suffix : string) (l1 l2 : list (string * node)) :
  Permutation l1 l2 -> category_total suffix l1 = category_total suffix l2.
Proof.
  intros H. rewrite !category_total_sum. unfold list_sum.
  induction H; cbn [map fold_right]; lia.
Qed.

Lemma totals_eq (t : list event) (a b a' b' : nat) :
  a = a' -> b = b' ->
  (t, @inr exn (nat * nat) (a, b)) = (t, inr (a', b')).
Proof. intros -> ->. reflexivity. Qed.

Lemma files_loop (dp : string) (files : list (string * node)) (c h : nat) :
  for_each files (c, h) (file_step Ignore dp) =
  (file_events dp files,
   inr (c + category_total ".cpp" files, h + category_total ".hpp" files)%nat).
Proof.
  revert c h. induction files as [|e files IH]; intros c h.
  - cbn [for_each flat_map]. unfold ret. rewrite !category_total_nil.
    now rewrite !Nat.add_0_r.
  - cbn [for_each]. rewrite file_step_eq.
    rewrite !category_total_cons. unfold file_events. cbn [flat_map].
    fold (file_events dp files). fold (matching (fst e)).
    rewrite matching_cases. unfold lines_read.
    destruct (endswith (fst e) ".cpp") eqn:Hc.
    + rewrite (suffixes_exclusive _ Hc). cbn [orb].
      destruct (read_line_count Ignore (snd e)) as [ex|k]; cbn [bind];
        rewrite IH; cbn [app]; apply totals_eq; lia.
    + cbn [orb]. destruct (endswith (fst e) ".hpp").
      * destruct (read_line_count Ignore (snd e)) as [ex|k]; cbn [bind];
          rewrite IH; cbn [app]; apply totals_eq; lia.
      * cbn [bind]. rewrite IH. cbn [app]. apply totals_eq; lia.
Qed.

Lemma walk_loop (items : list walk_item) (c h : nat) :
  for_each items (c, h) (dir_step Ignore) =
  (walk_events items,
   inr (c + category_total ".cpp" (flat_map filenames items),
        h + category_total ".hpp" (flat_map filenames items))%nat).
Proof.
  revert c h. induction items as [|it items IH]; intros c h.
  - cbn [for_each flat_map]. unfold ret. rewrite !category_total_nil.
    now rewrite !Nat.add_0_r.
  - cbn [for_each]. unfold dir_step at 1. rewrite files_loop. cbn [bind].
    rewrite IH. cbn [flat_map]. rewrite !category_total_app.
    unfold walk_events. cbn [flat_map]. apply totals_eq; lia.
Qed.

Lemma count_walk_eq (items : list walk_item) :
  count_walk Ignore items =
  (walk_events items,
   inr (category_total ".cpp" (flat_map filenames items),
        category_total ".hpp" (flat_map filenames items))).
Proof. unfold count_walk. now rewrite walk_loop. Qed.

(** *** The tree *)

(** Induction on a tree, with the hypothesis for every entry of a
    directory. *)
Lemma node_tree_ind (P : node -> Prop) :
  (forall f, P (File f)) ->
  (forall se es, Forall (fun e => P (snd e)) es -> P (Dir se es)) ->
  (forall t, P t -> P (Symlink t)) ->
  forall n, P n.
Proof.
  intros HF HD HS. fix IH 1. intros [f|se es|t].
  - apply HF.
  - apply HD. induction es as [|[name c] es IHes]; constructor.
    + apply IH.
    + exact IHes.
  - apply HS, IH.
Qed.

(** [os.walk] in terms of [scandir]: nothing when [scandir] raises (the
    [except OSError] branch, with no [onerror]), and otherwise the triple
    of the directory followed by the walks of its subdirectories. *)
Lemma walk_scandir (top : string) (n : node) :
  walk top n =
  match scandir n with
  | inl _ => []
  | inr es =>
      {| dirpath := top;
         dirnames := filter (fun e => is_dir (snd e)) es;
         filenames := filter (fun e => negb (is_dir (snd e))) es |}
      :: flat_map
           (fun e =>
              if is_dir (snd e) && negb (islink (snd e))
              then walk (join top (fst e)) (snd e)
              else [])
           es
  end.
Proof.
  induction n as [f|se es|t IH].
  - reflexivity.
  - destruct se; reflexivity.
  - cbn [walk]. rewrite IH. reflexivity.
Qed.

(** The walk reaches every file of the subtree once: the file names of
    its triples are those of [files_under], in another order. *)
Lemma walk_files_under (n : node) :
  forall top, Permutation (flat_map filenames (walk top n)) (files_under n).
Proof.
  induction n as [f|se es IH|t IH] using node_tree_ind; intros top.
  - constructor.
  - destruct se as [msg|]; [constructor|].
    cbn [walk files_under flat_map filenames].
    induction IH as [|e es He _ IHes]; [constructor|].
    cbn [filter flat_map]. rewrite flat_map_app.
    destruct (is_dir (snd e)) eqn:Hd; cbn [negb andb app].
    + destruct (islink (snd e)); cbn [negb flat_map app]; [exact IHes|].
      etransitivity; [apply Permutation_app_swap_app|].
      apply Permutation_app; [apply He|exact IHes].
    + cbn [flat_map app]. constructor. exact IHes.
  - cbn [walk files_under]. apply IH.
Qed.

Lemma count_lines_eq (fs : filesystem) (root : string) :
  count_lines fs root =
  (walk_events (os_walk fs root),
   inr (category_total ".cpp" (files_of fs root),
        category_total ".hpp" (files_of fs root))).
Proof.
  unfold count_lines. rewrite count_walk_eq.
  assert (H : Permutation (flat_map filenames (os_walk fs root))
                          (files_of fs root)).
  { unfold os_walk, files_of. destruct (fs root) as [n|]; [|constructor].
    apply walk_files_under. }
  now rewrite !(category_total_perm _ _ _ H).
Qed.






(** C4.  A matching file that cannot be opened or read: the round of the
    loop prints exactly one line, the warning with the path and the text
    of the exception, on the error stream; it prints no per-file line and
    leaves both counters as they were; and the loop goes on with the next
    file from the same counters.  A file in state [Unreadable cause] is
    such a file, with [cause] as the text. *)
Theorem unreadable_file_warning (repr : string -> string) (dp fname : string)
  (nd : node) (ex : exn) (st : nat * nat) (rest : list (string * node)) :
  matching fname = true ->
  read_line_count Ignore nd = inl ex ->
  let warning := EWarning (join dp fname) (str ex) in
  file_step Ignore dp st (fname, nd) = ([warning], inr st) /\
  stream_of warning = Stderr /\
  render repr warning =
    ("Warning: could not read " ++ repr (join dp fname) ++ ": " ++ str ex)%string /\
  printed_counts [warning] = [] /\
  for_each ((fname, nd) :: rest) st (file_step Ignore dp) =
    bind (print warning) (fun _ => for_each rest st (file_step Ignore dp)) /\
  (forall cause, read_line_count Ignore (File (Unreadable cause))
                 = inl (OSError cause)).
Proof.
  intros Hm Hread warning.
  assert (Hstep : file_step Ignore dp st (fname, nd) = ([warning], inr st)).
  { destruct st as [c h]. rewrite file_step_eq. cbn [fst snd].
    now rewrite Hm, Hread. }
  repeat split; try reflexivity; try exact Hstep.
  cbn [for_each]. rewrite Hstep. reflexivity.
Qed.




Lemma decoded_strict (bs : list byte) (t : list Z) :
  utf8_decode Strict bs = inr t -> decoded bs = t.
Proof.
  revert t. induction bs as [|bs x rest E IH] using decode_ind; intros t H.
  - cbn in H. now inversion H.
  - rewrite utf8_decode_step, E in H. rewrite decoded_step, E.
    destruct x as [c|s]; [|discriminate].
    destruct (utf8_decode Strict rest) as [e|t']; [discriminate|].
    cbn [emit] in H. inversion H. now rewrite (IH t' eq_refl).
Qed.

(** C9.  Whatever the bytes of a readable file, counting its lines with
    ['ignore'] raises nothing and yields a count: the count of the lines
    of the text that is left when the bytes that do not decode are taken
    out.  Bytes that decode as they are lose nothing. *)
Theorem undecodable_bytes_ignored (data : list byte) :
  (exists k, read_line_count Ignore (File (Readable data)) = inr k) /\
  (exists kept,
     subseq kept data /\
     utf8_decode Strict kept = utf8_decode Ignore data /\
     read_line_count Ignore (File (Readable data)) =
     read_line_count Strict (File (Readable kept))) /\
  (forall t, utf8_decode Strict data = inr t ->
             utf8_decode Ignore data = inr t).
Proof.
  split; [|split].
  - eexists. apply read_line_count_readable.
  - destruct (decoded_strict_subseq data) as (kept & Hsub & Hdec).
    exists kept. split; [exact Hsub|]. split.
    + now rewrite utf8_decode_ignore.
    + unfold read_line_count, read_bytes, text_lines. cbn [resolve].
      now rewrite Hdec, utf8_decode_ignore.
  - intros t H. rewrite utf8_decode_ignore. f_equal.
    now apply decoded_strict.
Qed.



(** *** Unlistable directories *)

Lemma flat_map_through {A B C : Type} (f : A -> B) (g : B -> list C)
  (l : list A) :
  flat_map g (map f l) = flat_map (fun x => g (f x)) l.
Proof. induction l as [|x l IH]; cbn; [reflexivity|now rewrite IH]. Qed.

Lemma walk_events_view (items : list walk_item) :
  walk_events items =
  flat_map (fun v => file_events (fst v) (snd v)) (map file_view items).
Proof. rewrite flat_map_through. reflexivity. Qed.

Lemma filenames_view (items : list walk_item) :
  flat_map filenames items = flat_map snd (map file_view items).
Proof. rewrite flat_map_through. reflexivity. Qed.

Lemma count_walk_view (items items' : list walk_item) :
  map file_view items = map file_view items' ->
  count_walk Ignore items = count_walk Ignore items'.
Proof.
  intros H. rewrite !count_walk_eq, !walk_events_view, !filenames_view.
  now rewrite H.
Qed.

Lemma resolve_without_unlistable (n : node) :
  resolve (without_unlistable n) = without_unlistable (resolve n).
Proof. induction n; cbn [resolve without_unlistable]; auto. Qed.

Lemma is_dir_without_unlistable (n : node) :
  is_dir (without_unlistable n) = is_dir n.
Proof.
  unfold is_dir. rewrite resolve_without_unlistable.
  destruct (resolve n); reflexivity.
Qed.

Lemma islink_without_unlistable (n : node) :
  islink (without_unlistable n) = islink n.
Proof. destruct n; reflexivity. Qed.

Lemma without_unlistable_file (n : node) :
  is_dir n = false -> without_unlistable n = n.
Proof.
  induction n as [f|se es|t IH]; intros H.
  - reflexivity.
  - discriminate.
  - cbn [without_unlistable]. f_equal. apply IH. exact H.
Qed.

Lemma unlistable_is_dir (n : node) : unlistable n = true -> is_dir n = true.
Proof. destruct n as [f|[msg|] es|t]; now intros H. Qed.

Lemma unlistable_walk (top : string) (n : node) :
  unlistable n = true -> walk top n = [].
Proof. destruct n as [f|[msg|] es|t]; now intros H. Qed.

Lemma walk_without_unlistable (n : node) :
  forall top,
    map file_view (walk top (without_unlistable n)) =
    map file_view (walk top n).
Proof.
  induction n as [f|se es IH|t IH] using node_tree_ind; intros top.
  - reflexivity.
  - destruct se as [msg|]; [reflexivity|].
    cbn [without_unlistable walk map]. unfold file_view at 1 3.
    cbn [dirpath filenames]. f_equal.
    + f_equal. induction IH as [|e es He _ IHes]; [reflexivity|].
      cbn [flat_map filter]. rewrite filter_app, IHes.
      destruct (unlistable (snd e)) eqn:Hu.
      * now rewrite (unlistable_is_dir _ Hu).
      * cbn [filter snd app]. rewrite is_dir_without_unlistable.
        destruct (is_dir (snd e)) eqn:Hd; cbn [negb app]; [reflexivity|].
        rewrite (without_unlistable_file _ Hd). now destruct e.
    + induction IH as [|e es He _ IHes]; [reflexivity|].
      cbn [flat_map]. rewrite flat_map_app, !map_app, IHes. f_equal.
      destruct (unlistable (snd e)) eqn:Hu.
      * rewrite (unlistable_walk _ _ Hu).
        now destruct (is_dir (snd e) && negb (islink (snd e))).
      * cbn [flat_map fst snd]. rewrite app_nil_r.
        rewrite is_dir_without_unlistable, islink_without_unlistable.
        destruct (is_dir (snd e) && negb (islink (snd e)));
          [apply He|reflexivity].
  - cbn [without_unlistable walk]. apply IH.
Qed.

Lemma walk_filenames_not_dir (n : node) :
  forall top it e,
    In it (walk top n) -> In e (filenames it) -> is_dir (snd e) = false.
Proof.
  induction n as [f|se es IH|t IH] using node_tree_ind; intros top it e Hit He.
  - contradiction.
  - destruct se as [msg|]; [contradiction|].
    cbn [walk] in Hit. destruct Hit as [<-|Hit].
    + cbn [filenames] in He. apply filter_In in He.
      now apply negb_true_iff.
    + apply in_flat_map in Hit. destruct Hit as (e' & He' & Hit).
      rewrite Forall_forall in IH.
      destruct (is_dir (snd e') && negb (islink (snd e'))); [|contradiction].
      eapply IH; eassumption.
  - cbn [walk] in Hit. eapply IH; eassumption.
Qed.

(** Every line [count_lines] prints is about a matching file name of a
    triple of the walk: the per-file line of a file that was read or the
    warning of one that was not. *)
Lemma walk_events_origin (items : list walk_item) (ev : event) :
  In ev (walk_events items) ->
  exists it e,
    In it items /\ In e (filenames it) /\ matching (fst e) = true /\
    ((exists k, read_line_count Ignore (snd e) = inr k /\
                ev = EFile (join (dirpath it) (fst e)) k) \/
     (exists ex, read_line_count Ignore (snd e) = inl ex /\
                 ev = EWarning (join (dirpath it) (fst e)) (str ex))).
Proof.
  unfold walk_events, file_events. intros H.
  apply in_flat_map in H. destruct H as (it & Hit & H).
  apply in_flat_map in H. destruct H as (e & He & H).
  exists it, e. fold (matching (fst e)) in H.
  destruct (matching (fst e)); [|contradiction].
  repeat split; try assumption.
  destruct (read_line_count Ignore (snd e)) as [ex|k];
    destruct H as [<-|[]]; [right|left]; eauto.
Qed.

Lemma count_lines_event_origin (fs : filesystem) (root : string) (ev : event) :
  In ev (trace (count_lines fs root)) ->
  exists dp e,
    In e (files_of fs root) /\ is_dir (snd e) = false /\
    matching (fst e) = true /\
    ((exists k, read_line_count Ignore (snd e) = inr k /\
                ev = EFile (join dp (fst e)) k) \/
     (exists ex, read_line_count Ignore (snd e) = inl ex /\
                 ev = EWarning (join dp (fst e)) (str ex))).
Proof.
  unfold trace. rewrite count_lines_eq. cbn [fst]. intros H.
  apply walk_events_origin in H.
  destruct H as (it & e & Hit & He & Hm & Hev).
  exists (dirpath it), e.
  unfold os_walk, files_of in *. destruct (fs root) as [n|]; [|contradiction].
  split; [|split; [|split; assumption]].
  - apply (Permutation_in _ (walk_files_under n root)).
    apply in_flat_map. eauto.
  - eapply walk_filenames_not_dir; eassumption.
Qed.

(** *** The run on an encoding standard output *)

Lemma for_each_ext_in {A S : Type} (xs : list A) (f g : S -> A -> IO S) :
  (forall st x, In x xs -> f st x = g st x) ->
  forall st, for_each xs st f = for_each xs st g.
Proof.
  induction xs as [|x xs IH]; intros H st; [reflexivity|].
  cbn [for_each]. rewrite (H st x) by now left.
  destruct (g st x) as [t [e|st']]; [reflexivity|].
  cbn [bind]. rewrite IH; [reflexivity|].
  intros st0 y Hy. apply H. now right.
Qed.

Lemma file_step_enc_encodable (can_encode : string -> bool)
  (errors : errors_policy) (dp : string) (st : nat * nat)
  (e : string * node) :
  can_encode (join dp (fst e)) = true ->
  file_step_enc can_encode errors dp st e = file_step errors dp st e.
Proof.
  intros H. destruct st as [c h], e as [fname nd]. cbn [fst] in H.
  unfold file_step_enc, file_step, print_file_line. now rewrite H.
Qed.

(** Where standard output can encode every path of the walk, the run is
    the one of [count_walk]. *)
Lemma count_walk_enc_encodable (can_encode : string -> bool)
  (errors : errors_policy) (items : list walk_item) :
  (forall it e, In it items -> In e (filenames it) ->
                can_encode (join (dirpath it) (fst e)) = true) ->
  count_walk_enc can_encode errors items = count_walk errors items.
Proof.
  intros H. unfold count_walk_enc, count_walk.
  apply for_each_ext_in. intros st it Hit.
  unfold dir_step_enc, dir_step. apply for_each_ext_in. intros st' e He.
  apply file_step_enc_encodable. now apply H.
Qed.

Lemma count_lines_enc_any (fs : filesystem) (root : string) :
  count_lines_enc (fun _ => true) fs root = count_lines fs root.
Proof.
  unfold count_lines_enc, count_lines. now apply count_walk_enc_encodable.
Qed.

Lemma count_walk_enc_view (can_encode : string -> bool)
  (errors : errors_policy) (items items' : list walk_item) :
  map file_view items = map file_view items' ->
  count_walk_enc can_encode errors items =
  count_walk_enc can_encode errors items'.
Proof.
  unfold count_walk_enc. generalize (0, 0)%nat. revert items'.
  induction items as [|it items IH]; intros [|it' items'] st H;
    try discriminate; [reflexivity|].
  cbn [map] in H. unfold file_view at 1 3 in H.
  injection H as Hdp Hfiles Hrest.
  cbn [for_each]. unfold dir_step_enc at 1 3. rewrite Hdp, Hfiles.
  destruct (for_each (filenames it') st
              (file_step_enc can_encode errors (dirpath it')))
    as [t [e|st']]; [reflexivity|].
  cbn [bind]. now rewrite (IH items' st' Hrest).
Qed.

Lemma walk_drop_unlistable (top name msg : string)
  (es1 sub es2 : list (string * node)) :
  map file_view (walk top (Dir None (es1 ++ (name, Dir (Some msg) sub) :: es2)))
  = map file_view (walk top (Dir None (es1 ++ es2))).
Proof.
  cbn [walk map]. unfold file_view at 1 3. cbn [dirpath filenames].
  rewrite !filter_app, !flat_map_app. reflexivity.
Qed.

(** C10, as the code has it.  A directory that cannot be listed is
    passed over in silence, and its listing error is not raised:
    [os.walk] yields nothing for a directory whose [scandir] raises; the
    run prints and returns the same as on the tree without its
    unlistable subdirectories, and as without one such subdirectory of
    the root, whatever it holds; a root that cannot be listed itself
    gives no line and [(0, 0)]; every line printed is the per-file line
    or the warning of a matching entry of the subtree that is not a
    directory; and on a standard output where printing a per-file line
    can raise, the run with the unlistable subdirectories ends as the run
    without them, with the same exception if any. *)
Theorem unlistable_directory_skipped :
  (forall top n e, scandir n = inl e -> walk top n = []) /\
  (forall fs root,
     count_lines (fun p => option_map without_unlistable (fs p)) root =
     count_lines fs root) /\
  (forall fs root es1 name msg sub es2,
     fs root = Some (Dir None (es1 ++ (name, Dir (Some msg) sub) :: es2)) ->
     count_lines fs root =
     count_lines
       (fun p => if String.eqb p root then Some (Dir None (es1 ++ es2))
                 else fs p)
       root) /\
  (forall fs root msg es,
     fs root = Some (Dir (Some msg) es) ->
     count_lines fs root = ([], inr (0, 0)%nat)) /\
  (forall fs root ev,
     In ev (trace (count_lines fs root)) ->
     exists dp e,
       In e (files_of fs root) /\ is_dir (snd e) = false /\
       matching (fst e) = true /\
       ((exists k, read_line_count Ignore (snd e) = inr k /\
                   ev = EFile (join dp (fst e)) k) \/
        (exists ex, read_line_count Ignore (snd e) = inl ex /\
                    ev = EWarning (join dp (fst e)) (str ex)))) /\
  (forall can_encode fs root,
     count_lines_enc can_encode
       (fun p => option_map without_unlistable (fs p)) root =
     count_lines_enc can_encode fs root).
Proof.
  split; [|split; [|split; [|split; [|split]]]].
  - intros top n e H. rewrite walk_scandir, H. reflexivity.
  - intros fs root. unfold count_lines, os_walk.
    destruct (fs root) as [n|]; cbn [option_map]; [|reflexivity].
    apply count_walk_view, walk_without_unlistable.
  - intros fs root es1 name msg sub es2 H. unfold count_lines, os_walk.
    rewrite H, String.eqb_refl.
    apply count_walk_view, walk_drop_unlistable.
  - intros fs root msg es H. unfold count_lines, os_walk. now rewrite H.
  - exact count_lines_event_origin.
  - intros can_encode fs root. unfold count_lines_enc, os_walk.
    destruct (fs root) as [n|]; cbn [option_map]; [|reflexivity].
    apply count_walk_enc_view, walk_without_unlistable.
Qed.

(** *** The loop over the roots *)

Section Roots.

Variable fs : filesystem.

Lemma count_lines_scan (d : string) :
  count_lines fs d = (scan_trace fs d, inr (scan_totals fs d)).
Proof.
  unfold scan_trace, scan_totals, trace, outcome.
  now rewrite count_lines_eq.
Qed.

Lemma root_step_eq (tc th : nat) (d : string) :
  root_step fs (tc, th) d =
  (root_events fs d,
   inr (if isdir fs d
        then (tc + fst (scan_totals fs d), th + snd (scan_totals fs d))%nat
        else (tc, th))).
Proof.
  unfold root_step, root_events. destruct (isdir fs d); cbn [negb].
  - rewrite count_lines_scan. destruct (scan_totals fs d) as [c h].
    reflexivity.
  - reflexivity.
Qed.

Lemma grand_totals_cons (d : string) (dirs : list string) :
  grand_totals fs (d :: dirs) =
  if isdir fs d
  then (fst (scan_totals fs d) + fst (grand_totals fs dirs),
        snd (scan_totals fs d) + snd (grand_totals fs dirs))%nat
  else grand_totals fs dirs.
Proof.
  unfold grand_totals, valid_roots. cbn [filter].
  destruct (isdir fs d); reflexivity.
Qed.

Lemma roots_loop (dirs : list string) (tc th : nat) :
  for_each dirs (tc, th) (root_step fs) =
  (flat_map (root_events fs) dirs,
   inr (tc + fst (grand_totals fs dirs), th + snd (grand_totals fs dirs))%nat).
Proof.
  revert tc th. induction dirs as [|d dirs IH]; intros tc th.
  - cbn. unfold ret. now rewrite !Nat.add_0_r.
  - cbn [for_each flat_map]. rewrite root_step_eq, grand_totals_cons.
    cbn [bind]. destruct (isdir fs d); rewrite IH; cbn [fst snd];
      apply totals_eq; lia.
Qed.

Lemma main_eq (given : list string) :
  main fs given =
  (flat_map (root_events fs) (parse_dirs given)
   ++ (if (1 <? List.length (parse_dirs given))%nat
       then [ESeparator;
             ETotal (List.length (parse_dirs given))
               (fst (grand_totals fs (parse_dirs given)))
               (snd (grand_totals fs (parse_dirs given)))
               (fst (grand_totals fs (parse_dirs given))
                + snd (grand_totals fs (parse_dirs given)))]
       else []),
   inr tt).
Proof.
  unfold main. rewrite roots_loop. cbn [bind Nat.add].
  destruct (1 <? List.length (parse_dirs given))%nat; reflexivity.
Qed.

Lemma parse_dirs_length (given : list string) :
  (1 <? List.length (parse_dirs given))%nat = (1 <? List.length given)%nat.
Proof. destruct given as [|d [|d' given]]; reflexivity. Qed.

Lemma parse_dirs_given (given : list string) :
  (1 <? List.length given)%nat = true -> parse_dirs given = given.
Proof. destruct given; [discriminate|reflexivity]. Qed.






End Roots.

(* ================================================================== *)
(** * Runs on concrete trees *)

(** The scenario of the specification: [x.cpp] with 3 lines, [sub/y.hpp]
    with 5 and [readme.md], scanned as the root ["a"]; the tree also
    holds a file that cannot be read, a directory that cannot be listed
    and a link to a directory. *)
Example scenario_proj :
  main fs_ab ["a"] =
  ([EScanning "a"; EFile "a/x.cpp" 3;
    EWarning "a/gone.hpp" "[Errno 2] No such file or directory";
    EFile "a/sub/y.hpp" 5; ESummary "a" 3 5 8],
   inr tt).
Proof. vm_compute. reflexivity. Qed.

Example scenario_proj_text :
  map (render repr_plain) (filter on_stdout (trace (main fs_ab ["a"]))) =
  [ nl ++ "== Scanning 'a' ==";
    "a/x.cpp: 3 lines";
    "a/sub/y.hpp: 5 lines";
    nl ++ "Summary for 'a': .cpp=3  .hpp=5  sum=8" ]%string.
Proof. vm_compute. reflexivity. Qed.

(** With ['strict'] a byte that does not decode raises; with ['ignore']
    the same file has a count. *)
Example strict_decoding_raises :
  read_line_count Strict (File (Readable [x61; x0a; xff])) =
    inl (UnicodeDecodeError "invalid start byte") /\
  read_line_count Ignore (File (Readable [x61; x0a; xff])) = inr 1%nat.
Proof. split; reflexivity. Qed.

(** A carriage return ends a line too. *)
Example carriage_return_ends_line :
  read_line_count Ignore (File (Readable [x61; x0d; x62; x0a; x63])) =
  inr 3%nat.
Proof. reflexivity. Qed.

Lemma per_file_line_count_witness :
  forallb no_line_break [bytes "a"; bytes "b"] = true /\
  no_line_break (bytes "c") = true /\
  has_text (bytes "c") = true /\
  read_line_count Ignore
    (File (Readable (terminated_lines [bytes "a"; bytes "b"] ++ bytes "c")))
  = inr 3%nat.
Proof.
  split; [reflexivity|]. split; [reflexivity|]. split; [reflexivity|].
  apply (proj1 per_file_line_count [bytes "a"; bytes "b"] (bytes "c"));
    reflexivity.
Defined.

Lemma unreadable_file_warning_witness :
  matching "gone.hpp" = true /\
  read_line_count Ignore (File (Unreadable "[Errno 13] Permission denied"))
    = inl (OSError "[Errno 13] Permission denied") /\
  file_step Ignore "proj" (3, 0)%nat
    ("gone.hpp", File (Unreadable "[Errno 13] Permission denied")) =
  ([EWarning "proj/gone.hpp" "[Errno 13] Permission denied"],
   inr (3, 0)%nat).
Proof.
  split; [reflexivity|]. split; [reflexivity|].
  exact (proj1 (unreadable_file_warning repr_plain "proj" "gone.hpp"
                  (File (Unreadable "[Errno 13] Permission denied"))
                  (OSError "[Errno 13] Permission denied") (3, 0)%nat []
                  eq_refl eq_refl)).
Defined.


Lemma undecodable_bytes_ignored_witness :
  utf8_decode Strict (bytes "ab") = inr [97%Z; 98%Z] /\
  utf8_decode Ignore (bytes "ab") = inr [97%Z; 98%Z].
Proof.
  split; [reflexivity|].
  apply (proj2 (proj2 (undecodable_bytes_ignored (bytes "ab")))).
  reflexivity.
Defined.

Lemma unlistable_directory_skipped_witness :
  fs_ab "a" =
    Some (Dir None
            (firstn 4 (entries_of proj)
             ++ ("locked",
                 Dir (Some "[Errno 13] Permission denied")
                   [ ("z.cpp", File (Readable (bytes "zz"))) ])
             :: skipn 5 (entries_of proj))) /\
  count_lines fs_ab "a" =
  count_lines
    (fun p =>
       if String.eqb p "a"
       then Some (Dir None (firstn 4 (entries_of proj)
                            ++ skipn 5 (entries_of proj)))
       else fs_ab p)
    "a" /\
  fs_locked "locked" =
    Some (Dir (Some "[Errno 13] Permission denied")
            [ ("z.cpp", File (Readable (bytes "zz"))) ]) /\
  count_lines fs_locked "locked" = ([], inr (0, 0)%nat).
Proof.
  split; [reflexivity|]. split; [|split; [reflexivity|]].
  - apply (proj1 (proj2 (proj2 unlistable_directory_skipped)) fs_ab "a"
             (firstn 4 (entries_of proj)) "locked"
             "[Errno 13] Permission denied"
             [ ("z.cpp", File (Readable (bytes "zz"))) ]
             (skipn 5 (entries_of proj))).
    reflexivity.
  - apply (proj1 (proj2 (proj2 (proj2 unlistable_directory_skipped)))
             fs_locked "locked" "[Errno 13] Permission denied"
             [ ("z.cpp", File (Readable (bytes "zz"))) ]).
    reflexivity.
Defined.




(** On a standard output that encodes with UTF-8 and ['strict'],
    [count_lines] raises on the existing root ["r"] of [fs_rawname]: the
    per-file line of the file whose name is not UTF-8 cannot be written,
    and line 24 stands outside the [try]. *)
Lemma per_file_print_raises :
  isdir fs_rawname "r" = true /\
  count_lines_enc utf8_encodable fs_rawname "r" =
    ([EFile "r/ok.cpp" 1],
     inl (UnicodeEncodeError "surrogates not allowed")) /\
  ~ (exists t totals,
       count_lines_enc utf8_encodable fs_rawname "r" = (t, inr totals)).
Proof.
  split; [reflexivity|]. split; [vm_compute; reflexivity|].
  intros (t & totals & H). vm_compute in H. discriminate H.
Qed.

(* ================================================================== *)
(** * Further properties *)

(** ** Names, suffixes and paths *)

Lemma string_length_app (s1 s2 : string) :
  String.length (s1 ++ s2)%string = (String.length s1 + String.length s2)%nat.
Proof. induction s1 as [|c s1 IH]; cbn; [reflexivity|now rewrite IH]. Qed.

Lemma substring_all (s : string) : substring 0 (String.length s) s = s.
Proof. induction s as [|c s IH]; cbn; [reflexivity|now rewrite IH]. Qed.

Lemma substring_skip (pre s : string) (m : nat) :
  substring (String.length pre) m (pre ++ s)%string = substring 0 m s.
Proof. induction pre as [|c pre IH]; cbn; [reflexivity|exact IH]. Qed.

Lemma substring_split (s : string) (n : nat) :
  (n <= String.length s)%nat ->
  s = (substring 0 n s ++ substring n (String.length s - n) s)%string.
Proof.
  revert n. induction s as [|c s IH]; intros n Hn.
  - destruct n; reflexivity.
  - destruct n as [|n].
    + cbn [substring String.length Nat.sub append].
      now rewrite substring_all.
    + cbn [substring String.length Nat.sub append]. f_equal.
      apply IH. cbn in Hn. lia.
Qed.


(** [endswith s suffix] holds exactly when [s] is some string followed by
    [suffix]. *)
Lemma endswith_iff (s suffix : string) :
  endswith s suffix = true <-> exists stem, s = (stem ++ suffix)%string.
Proof.
  unfold endswith. split.
  - intros H. apply andb_prop in H. destruct H as [Hle Heq].
    apply Nat.leb_le in Hle. apply String.eqb_eq in Heq.
    exists (substring 0 (String.length s - String.length suffix) s).
    assert (Hs := substring_split s (String.length s - String.length suffix)
                    ltac:(lia)).
    replace (String.length s - (String.length s - String.length suffix))%nat
      with (String.length suffix) in Hs by lia.
    now rewrite Heq in Hs.
  - intros [stem ->]. rewrite string_length_app.
    apply andb_true_intro. split; [apply Nat.leb_le; lia|].
    replace (String.length stem + String.length suffix
             - String.length suffix)%nat
      with (String.length stem) by lia.
    rewrite substring_skip, substring_all. apply String.eqb_refl.
Qed.



(** X1.  A file name is processed exactly when it is some stem followed
    by [.cpp] or by [.hpp]: the suffix stands at the very end of the name
    and is compared as it is written. *)
Theorem matching_iff (fname : string) :
  matching fname = true <->
  exists stem, fname = (stem ++ ".cpp")%string \/
               fname = (stem ++ ".hpp")%string.
Proof.
  rewrite matching_cases, orb_true_iff, !endswith_iff.
  split.
  - intros [[stem H]|[stem H]]; exists stem; auto.
  - intros [stem [H|H]]; [left|right]; exists stem; exact H.
Qed.






Lemma filter_length_perm {A : Type} (f : A -> bool) (l l' : list A) :
  Permutation l l' ->
  List.length (filter f l) = List.length (filter f l').
Proof.
  induction 1 as [|x l l' _ IH|x y l|l l' l'' _ IH1 _ IH2]; cbn [filter].
  - reflexivity.
  - destruct (f x); cbn [List.length]; now rewrite IH.
  - destruct (f x), (f y); reflexivity.
  - now rewrite IH1.
Qed.



Lemma os_walk_files (fs : filesystem) (root : string) :
  Permutation (flat_map filenames (os_walk fs root)) (files_of fs root).
Proof.
  unfold os_walk, files_of. destruct (fs root) as [n|]; [|constructor].
  apply walk_files_under.
Qed.

Lemma walk_events_length (items : list walk_item) :
  List.length (walk_events items) =
  List.length (filter (fun e => matching (fst e)) (flat_map filenames items)).
Proof.
  unfold walk_events, file_events.
  induction items as [|it items IH]; [reflexivity|].
  cbn [flat_map]. rewrite filter_app, !length_app, IH. f_equal.
  induction (filenames it) as [|e files IHf]; [reflexivity|].
  cbn [flat_map filter]. rewrite length_app, IHf.
  fold (matching (fst e)). destruct (matching (fst e)); [|reflexivity].
  destruct (read_line_count Ignore (snd e)); reflexivity.
Qed.







Lemma filter_none {A : Type} (f : A -> bool) (l : list A) :
  forallb (fun x => negb (f x)) l = true -> filter f l = [].
Proof.
  induction l as [|x l IH]; [reflexivity|]. cbn [forallb filter].
  intros H. apply andb_prop in H. destruct H as [Hx Hl].
  apply negb_true_iff in Hx. rewrite Hx. now apply IH.
Qed.

(** X4.  When no file of the subtree has a matching name, [count_lines]
    prints nothing and returns [(0, 0)]. *)
Theorem no_matching_file_no_output (fs : filesystem) (root : string) :
  forallb (fun e => negb (matching (fst e))) (files_of fs root) = true ->
  count_lines fs root = ([], inr (0, 0)%nat).
Proof.
  intros H.
  assert (Hnone : forall suffix,
             suffix = ".cpp" \/ suffix = ".hpp" ->
             category_total suffix (files_of fs root) = 0%nat).
  { intros suffix Hs. unfold category_total. rewrite filter_none;
      [reflexivity|].
    rewrite forallb_forall in *. intros e He.
    specialize (H e He). apply negb_true_iff in H.
    rewrite matching_cases in H. apply orb_false_iff in H.
    apply negb_true_iff. destruct Hs as [-> | ->]; tauto. }
  rewrite count_lines_eq, !Hnone by auto. f_equal.
  apply length_zero_iff_nil.
  rewrite walk_events_length.
  rewrite (filter_length_perm _ _ _ (os_walk_files fs root)).
  now rewrite filter_none.
Qed.

Lemma no_matching_file_no_output_witness :
  forallb (fun e => negb (matching (fst e))) (files_of fs_notes "notes")
    = true /\
  count_lines fs_notes "notes" = ([], inr (0, 0)%nat).
Proof.
  split; [reflexivity|].
  apply (no_matching_file_no_output fs_notes "notes"). reflexivity.
Defined.

(** ** The roots of a run *)

Section RootLoop.

Variable fs : filesystem.




Lemma total_block_roots (b : bool) (k c h g : nat) :
  let block := if b then [ESeparator; ETotal k c h g] else [] in
  error_roots block = [] /\ scanned_roots block = [] /\
  summarized_roots block = [] /\ summaries block = [].
Proof. destruct b; repeat split. Qed.






Lemma invalid_roots_body (dirs : list string) :
  forallb (fun d => negb (isdir fs d)) dirs = true ->
  flat_map (root_events fs) dirs = map EError dirs /\
  grand_totals fs dirs = (0, 0)%nat.
Proof.
  induction dirs as [|d dirs IH]; [split; reflexivity|].
  cbn [forallb]. intros H. apply andb_prop in H. destruct H as [Hd Hl].
  apply negb_true_iff in Hd. destruct (IH Hl) as [IHb IHt].
  cbn [flat_map map]. rewrite grand_totals_cons, IHb, IHt.
  unfold root_events. rewrite Hd. split; reflexivity.
Qed.

(** X8.  When none of the roots is a directory, the run prints one error
    line per root and nothing else, but for the grand-total block with
    zeros when more than one root was given, and ends normally. *)
Theorem all_roots_invalid (given : list string) :
  forallb (fun d => negb (isdir fs d)) (parse_dirs given) = true ->
  main fs given =
    (map EError (parse_dirs given)
     ++ (if (1 <? List.length given)%nat
         then [ESeparator; ETotal (List.length given) 0 0 0]
         else []),
     inr tt).
Proof.
  intros H. destruct (invalid_roots_body _ H) as [Hb Ht].
  rewrite main_eq, Hb, Ht, parse_dirs_length.
  destruct (1 <? List.length given)%nat eqn:E; [|reflexivity].
  now rewrite (parse_dirs_given _ E).
Qed.

End RootLoop.



Lemma all_roots_invalid_witness :
  forallb (fun d => negb (isdir fs_ab d)) (parse_dirs ["x"; "y"]) = true /\
  main fs_ab ["x"; "y"] =
    ([EError "x"; EError "y"; ESeparator; ETotal 2 0 0 0], inr tt).
Proof.
  split; [reflexivity|].
  apply (all_roots_invalid fs_ab ["x"; "y"]). reflexivity.
Defined.

(** ** A directory and its subdirectories *)









(** ** Symbolic links to directories *)

Lemma resolve_without_dir_links (n : node) :
  resolve (without_dir_links n) = without_dir_links (resolve n).
Proof. induction n; cbn [resolve without_dir_links]; auto. Qed.

Lemma is_dir_without_dir_links (n : node) :
  is_dir (without_dir_links n) = is_dir n.
Proof.
  unfold is_dir. rewrite resolve_without_dir_links.
  destruct (resolve n); reflexivity.
Qed.

Lemma islink_without_dir_links (n : node) :
  islink (without_dir_links n) = islink n.
Proof. destruct n; reflexivity. Qed.

Lemma without_dir_links_file (n : node) :
  is_dir n = false -> without_dir_links n = n.
Proof.
  induction n as [f|se es|t IH]; intros H.
  - reflexivity.
  - discriminate.
  - cbn [without_dir_links]. f_equal. apply IH. exact H.
Qed.

Lemma walk_without_dir_links (n : node) :
  forall top,
    map file_view (walk top (without_dir_links n)) =
    map file_view (walk top n).
Proof.
  induction n as [f|se es IH|t IH] using node_tree_ind; intros top.
  - reflexivity.
  - destruct se as [msg|]; [reflexivity|].
    cbn [without_dir_links walk map]. unfold file_view at 1 3.
    cbn [dirpath filenames]. f_equal.
    + f_equal. induction IH as [|e es He _ IHes]; [reflexivity|].
      cbn [flat_map filter]. rewrite filter_app, IHes.
      destruct (islink (snd e) && is_dir (snd e)) eqn:Hl.
      * apply andb_prop in Hl. destruct Hl as [_ ->]. reflexivity.
      * cbn [filter snd app]. rewrite is_dir_without_dir_links.
        destruct (is_dir (snd e)) eqn:Hd; cbn [negb app]; [reflexivity|].
        rewrite (without_dir_links_file _ Hd). now destruct e.
    + induction IH as [|e es He _ IHes]; [reflexivity|].
      cbn [flat_map]. rewrite flat_map_app, !map_app, IHes. f_equal.
      destruct (islink (snd e) && is_dir (snd e)) eqn:Hl.
      * apply andb_prop in Hl. destruct Hl as [-> ->]. reflexivity.
      * cbn [flat_map fst snd]. rewrite app_nil_r.
        rewrite is_dir_without_dir_links, islink_without_dir_links.
        destruct (is_dir (snd e) && negb (islink (snd e)));
          [apply He|reflexivity].
  - cbn [without_dir_links walk]. apply IH.
Qed.

(** X10.  [count_lines] never goes through a symbolic link to a
    directory inside the tree: it prints and returns the same as on the
    tree without those links. *)
Theorem directory_links_not_followed (fs : filesystem) (root : string) :
  count_lines (fun p => option_map without_dir_links (fs p)) root =
  count_lines fs root.
Proof.
  unfold count_lines, os_walk.
  destruct (fs root) as [n|]; cbn [option_map]; [|reflexivity].
  apply count_walk_view, walk_without_dir_links.
Qed.

(** ** Printed paths *)

Lemma prefix_refl (s : string) : String.prefix s s = true.
Proof.
  induction s as [|c s IH]; [reflexivity|]. cbn [String.prefix].
  destruct (ascii_dec c c); [exact IH|contradiction].
Qed.

Lemma prefix_app (p a x : string) :
  String.prefix p a = true -> String.prefix p (a ++ x)%string = true.
Proof.
  revert a. induction p as [|c p IH]; intros a H;
    [now destruct (a ++ x)%string|].
  destruct a as [|d a]; [discriminate|].
  cbn [String.prefix append] in *.
  destruct (ascii_dec c d); [now apply IH|discriminate].
Qed.

Lemma join_prefix (p a b : string) :
  startswith b "/" = false ->
  String.prefix p a = true -> String.prefix p (join a b) = true.
Proof.
  intros Hb Hp. unfold join. rewrite Hb.
  destruct (String.eqb a "" || endswith a "/"); now apply prefix_app.
Qed.

Lemma walk_under_root (root : string) (n : node) :
  forall top,
    plain_names n = true ->
    String.prefix root top = true ->
    forall it, In it (walk top n) ->
      String.prefix root (dirpath it) = true /\
      (forall e, In e (filenames it) -> startswith (fst e) "/" = false).
Proof.
  induction n as [f|se es IH|t IH] using node_tree_ind;
    intros top Hplain Htop it Hit.
  - contradiction.
  - destruct se as [msg|]; [contradiction|].
    cbn [plain_names] in Hplain. rewrite forallb_forall in Hplain.
    rewrite Forall_forall in IH.
    cbn [walk] in Hit. destruct Hit as [<-|Hit].
    + cbn [dirpath filenames]. split; [exact Htop|].
      intros e He. apply filter_In in He. destruct He as [He _].
      specialize (Hplain e He). apply andb_prop in Hplain.
      now apply negb_true_iff.
    + apply in_flat_map in Hit. destruct Hit as (e & He & Hit).
      destruct (is_dir (snd e) && negb (islink (snd e))); [|contradiction].
      specialize (Hplain e He). apply andb_prop in Hplain.
      destruct Hplain as [Hname Hsub]. apply negb_true_iff in Hname.
      apply (IH e He (join top (fst e)) Hsub); [|exact Hit].
      now apply join_prefix.
  - cbn [walk] in Hit. cbn [plain_names] in Hplain.
    eapply IH; eassumption.
Qed.

(** X11.  Every path [count_lines] prints, in a per-file line or in a
    warning, starts with the root it was given, when no entry name of the
    tree starts with a slash. *)
Theorem printed_paths_under_root (fs : filesystem) (root : string) :
  plain_root fs root = true ->
  Forall (fun ev => exists path,
            event_path ev = Some path /\ startswith path root = true)
    (trace (count_lines fs root)).
Proof.
  intros Hplain. apply Forall_forall. intros ev Hev.
  unfold trace in Hev. rewrite count_lines_eq in Hev. cbn [fst] in Hev.
  apply walk_events_origin in Hev.
  destruct Hev as (it & e & Hit & He & _ & Hev).
  unfold os_walk in Hit. unfold plain_root in Hplain.
  destruct (fs root) as [n|]; [|contradiction].
  destruct (walk_under_root root n root Hplain (prefix_refl root) it Hit)
    as [Hdp Hnames].
  assert (Hpath : startswith (join (dirpath it) (fst e)) root = true)
    by (apply join_prefix; auto).
  destruct Hev as [(k & _ & ->)|(ex & _ & ->)]; eexists; split;
    try reflexivity; exact Hpath.
Qed.

Lemma printed_paths_under_root_witness :
  plain_root fs_ab "a" = true /\
  Forall (fun ev => exists path,
            event_path ev = Some path /\ startswith path "a" = true)
    (trace (count_lines fs_ab "a")).
Proof.
  split; [reflexivity|].
  apply (printed_paths_under_root fs_ab "a"). reflexivity.
Defined.

(** ** More on the count of one file *)

Lemma has_text_false (data : list byte) :
  has_text data = false -> decoded data = [].
Proof. unfold has_text. destruct (decoded data); [reflexivity|discriminate]. Qed.

(** X12.  What follows the last line feed of a file is not counted when
    it leaves no text: a file of N lines, each ended by a line feed, and
    then nothing, or only bytes that do not decode, counts N lines. *)
Theorem newline_terminated_file_count (ls : list (list byte))
  (last : list byte) :
  forallb no_line_break ls = true ->
  has_text last = false ->
  read_line_count Ignore (File (Readable (terminated_lines ls ++ last))) =
  inr (List.length ls).
Proof.
  intros Hls Hlast.
  rewrite read_line_count_readable, line_count_terminated_lines by assumption.
  rewrite (has_text_false _ Hlast). cbn. now rewrite Nat.add_0_r.
Qed.

Lemma newline_terminated_file_count_witness :
  forallb no_line_break [bytes "a"; bytes "b"] = true /\
  has_text [xff; xfe] = false /\
  read_line_count Ignore
    (File (Readable (terminated_lines [bytes "a"; bytes "b"] ++ [xff; xfe])))
  = inr 2%nat.
Proof.
  split; [reflexivity|]. split; [reflexivity|].
  apply (newline_terminated_file_count [bytes "a"; bytes "b"] [xff; xfe]);
    reflexivity.
Defined.

Lemma translate_newlines_app_crlf (t r : list Z) :
  Forall not_break t ->
  translate_newlines (t ++ CR :: LF :: r) = t ++ LF :: translate_newlines r.
Proof.
  induction 1 as [|c t Hc _ IH]; cbn [app translate_newlines].
  - reflexivity.
  - destruct (not_break_tests c Hc) as [_ ->]. now rewrite IH.
Qed.

Lemma line_count_app_crlf (t r : list Z) :
  Forall not_break t -> line_count (t ++ CR :: LF :: r) = S (line_count r).
Proof.
  intros Ht. unfold line_count, readlines.
  rewrite translate_newlines_app_crlf, lines_from_app_lf by assumption.
  reflexivity.
Qed.

Lemma decoded_ascii_cons (b : byte) (r : list byte) :
  (byte_val b < 128)%Z -> decoded (b :: r) = byte_val b :: decoded r.
Proof. intros Hb. exact (decoded_app_ascii [] b r Hb). Qed.

Lemma line_count_crlf_lines (ls : list (list byte)) (rest : list byte) :
  forallb no_line_break ls = true ->
  line_count (decoded (crlf_lines ls ++ rest)) =
  (List.length ls + line_count (decoded rest))%nat.
Proof.
  induction ls as [|l ls IH]; intros Hls; [reflexivity|].
  cbn [forallb] in Hls. apply andb_prop in Hls. destruct Hls as [Hl Hls].
  unfold crlf_lines in *. cbn [flat_map List.length].
  rewrite <- !app_assoc. cbn [app].
  rewrite decoded_app_ascii by (vm_compute; reflexivity).
  rewrite decoded_ascii_cons by (vm_compute; reflexivity).
  change (byte_val x0d) with CR. change (byte_val x0a) with LF.
  rewrite line_count_app_crlf by (apply decoded_no_line_break; assumption).
  now rewrite IH.
Qed.

(** X13.  A line ended by a carriage return and a line feed counts once:
    a file of N such lines followed by a last line without terminator
    counts N lines, and one more when the last line holds text. *)
Theorem crlf_file_count (ls : list (list byte)) (last : list byte) :
  forallb no_line_break ls = true ->
  no_line_break last = true ->
  read_line_count Ignore (File (Readable (crlf_lines ls ++ last))) =
  inr (List.length ls + (if has_text last then 1 else 0))%nat.
Proof.
  intros Hls Hlast.
  rewrite read_line_count_readable, line_count_crlf_lines by assumption.
  unfold has_text. destruct (decoded last) as [|c t] eqn:E; [reflexivity|].
  rewrite <- E, line_count_plain; [reflexivity| |].
  - apply decoded_no_line_break; assumption.
  - rewrite E. discriminate.
Qed.

Lemma crlf_file_count_witness :
  forallb no_line_break [bytes "a"; bytes "b"] = true /\
  no_line_break (bytes "c") = true /\
  read_line_count Ignore
    (File (Readable (crlf_lines [bytes "a"; bytes "b"] ++ bytes "c")))
  = inr 3%nat.
Proof.
  split; [reflexivity|]. split; [reflexivity|].
  apply (crlf_file_count [bytes "a"; bytes "b"] (bytes "c")); reflexivity.
Defined.

Lemma lines_from_lf (cur s : list Z) :
  lines_from cur (LF :: s) = rev (LF :: cur) :: lines_from [] s.
Proof. reflexivity. Qed.

(** The lines of a text that goes on after a line feed: those up to the
    line feed, then those of what follows. *)
Lemma lines_after_lf (t r : list Z) :
  forall cur,
    lines_from cur (translate_newlines (t ++ LF :: r)) =
    lines_from cur (translate_newlines (t ++ [LF]))
    ++ lines_from [] (translate_newlines r).
Proof.
  remember (List.length t) as n eqn:Hn. revert t Hn.
  induction n as [n IH] using lt_wf_ind. intros t Hn cur.
  destruct t as [|c t]; [reflexivity|].
  cbn [app translate_newlines]. cbn [List.length] in Hn.
  destruct (c =? CR)%Z eqn:Ec.
  - rewrite !lines_from_lf. cbn [app]. f_equal.
    destruct t as [|c2 t]; [reflexivity|].
    cbn [app List.length] in *.
    destruct (c2 =? LF)%Z.
    + apply (IH (List.length t)); [lia|reflexivity].
    + apply (IH (S (List.length t)) ltac:(lia) (c2 :: t) eq_refl).
  - cbn [lines_from].
    destruct (c =? LF)%Z; cbn [app]; [f_equal|];
      (apply (IH (List.length t)); [lia|reflexivity]).
Qed.

(** X14.  Counts add up over concatenation at a line feed: when the bytes
    of a file end with a line feed, the file followed by the bytes of a
    second file counts the lines of the first plus the lines of the
    second. *)
Theorem line_count_concat (d1 d2 : list byte) :
  exists k1 k2,
    read_line_count Ignore (File (Readable (d1 ++ [x0a]))) = inr k1 /\
    read_line_count Ignore (File (Readable d2)) = inr k2 /\
    read_line_count Ignore (File (Readable ((d1 ++ [x0a]) ++ d2))) =
    inr (k1 + k2)%nat.
Proof.
  do 2 eexists. rewrite !read_line_count_readable.
  split; [reflexivity|]. split; [reflexivity|]. f_equal.
  rewrite <- app_assoc. cbn [app].
  rewrite !decoded_app_ascii by (vm_compute; reflexivity).
  change (byte_val x0a) with LF. cbn [decoded].
  unfold line_count, readlines.
  now rewrite lines_after_lf, length_app.
Qed.

Lemma decoded_length (data : list byte) :
  (List.length (decoded data) <= List.length data)%nat.
Proof.
  induction data as [|bs x rest E IH] using decode_ind; [cbn; lia|].
  rewrite decoded_step, E. apply decode_step_shorter in E.
  destruct x; cbn [List.length]; lia.
Qed.

Lemma translate_newlines_length (t : list Z) :
  (List.length (translate_newlines t) <= List.length t)%nat.
Proof.
  remember (List.length t) as n eqn:Hn. revert t Hn.
  induction n as [n IH] using lt_wf_ind. intros t Hn.
  destruct t as [|c t]; [cbn; lia|].
  cbn [translate_newlines]. cbn [List.length] in Hn.
  destruct (c =? CR)%Z.
  - destruct t as [|c2 t]; [cbn; lia|]. cbn [List.length] in *.
    destruct (c2 =? LF)%Z.
    + specialize (IH (List.length t) ltac:(lia) t eq_refl). lia.
    + specialize (IH (S (List.length t)) ltac:(lia) (c2 :: t) eq_refl).
      cbn [List.length] in IH. lia.
  - cbn [List.length].
    specialize (IH (List.length t) ltac:(lia) t eq_refl). lia.
Qed.

Lemma lines_from_length (t cur : list Z) :
  (List.length (lines_from cur t) <=
   List.length t + (match cur with [] => 0 | _ => 1 end))%nat.
Proof.
  revert cur. induction t as [|c t IH]; intros cur; cbn [lines_from].
  - destruct cur; cbn; lia.
  - destruct (c =? LF)%Z; cbn [List.length].
    + specialize (IH []). cbn in IH. lia.
    + specialize (IH (c :: cur)). cbn in IH. lia.
Qed.

(** X15.  A file has at most as many lines as it has bytes. *)
Theorem line_count_at_most_bytes (data : list byte) :
  exists k,
    read_line_count Ignore (File (Readable data)) = inr k /\
    (k <= List.length data)%nat.
Proof.
  eexists. split; [apply read_line_count_readable|].
  unfold line_count, readlines.
  pose proof (lines_from_length (translate_newlines (decoded data)) []).
  pose proof (translate_newlines_length (decoded data)).
  pose proof (decoded_length data). cbn in *. lia.
Qed.
